(** * Book Recommender: the data pipeline and the query step of
    [streamlit_app-3.py], embedded in Rocq.

    The script loads two CSV tables with pandas, joins them on [isbn10],
    folds near-duplicate genre labels, drops rare genres, attaches a
    Bayesian average to every book and, per user request, narrows the
    table by author or genre and by page bucket, ranks it and keeps the
    first [number_rec] rows.

    Conventions of the embedding:
    - a DataFrame is the list of its rows, in row order;
    - a text cell is [option string], [None] being pandas' NaN;
    - a [float64] cell holding a number is a rational ([Q]): the rounding
      of the floating-point operations is not modelled, and neither is
      overflow, so a statement about a number is about the exact value of
      the expression that the script evaluates; the one place where the
      script can leave the finite numbers (the division of
      [bayes_average]) produces a [float64] value with NaN and the
      infinities written out;
    - integer cells are [Z];
    - the cells of the ISBN columns are kept as the text of the file, which
      is how [read_csv] stores a column where some ISBN is not a number
      (the check digit X);
    - the two library calls whose result the script does not pin down,
      [sort_values] with its default sort kind and [re] on an arbitrary
      pattern, are interfaces ([SortValues], [PyRe]) that state what the
      libraries promise; everything else is a function that computes. *)

From Stdlib Require Import QArith Qround Qabs Qfield Lqa Ascii.
From stdpp Require Import gmap strings list sorting pretty.

Local Open Scope string_scope.
Local Open Scope list_scope.
Local Open Scope Z_scope.

(** ** pandas cells *)

(** What [pd.read_csv] turns into NaN with its default [na_values]. *)
Definition na_values : list string :=
  [ EmptyString; "#N/A"; "#N/A N/A"; "#NA"; "-1.#IND"; "-1.#QNAN"; "-NaN";
    "-nan"; "1.#IND"; "1.#QNAN"; "<NA>"; "N/A"; "NA"; "NULL"; "NaN"; "None";
    "n/a"; "nan"; "null" ].

(** A text field of a CSV line, as [read_csv] stores it. *)
Definition read_cell (s : string) : option string :=
  if decide (s ∈ na_values) then None else Some s.

(** [Series.astype(str)]: NaN is printed as the three letters nan. *)
Definition astype_str (c : option string) : string :=
  match c with
  | Some s => s
  | None => "nan"
  end.

(** A [float64] result. *)
Inductive float64 : Type :=
  | Fin (q : Q)
  | PInf
  | NInf
  | NaN.

(** IEEE division of two finite numbers. *)
Definition fdiv (n d : Q) : float64 :=
  if Qeq_bool d 0 then
    if Qeq_bool n 0 then NaN
    else if Qle_bool 0 n then PInf else NInf
  else Fin (n / d).

(** The comparison [a >= b] of two floats: false as soon as one is NaN. *)
Definition fge (a b : float64) : bool :=
  match a, b with
  | NaN, _ | _, NaN => false
  | PInf, _ => true
  | _, NInf => true
  | Fin x, Fin y => Qle_bool y x
  | _, _ => false
  end.


(** The order [sort_values(ascending=False, na_position='last')] puts the
    keys in: numbers from large to small, then the NaN keys. *)
Definition key_ge (a b : float64) : bool :=
  match a, b with
  | _, NaN => true
  | NaN, _ => false
  | _, _ => fge a b
  end.

(** ** Section 1 of the script: the two CSV files *)

(** A line of [goodreads_books.csv] (the columns the script reads). *)
Record GoodreadsCsv : Type := {
  g_bookID : Z;
  g_title : string;
  g_authors : string;
  g_average_rating : Q;
  g_isbn : string;
  g_isbn13 : string;
  g_num_pages : Z;
  g_ratings_count : Z
}.

(** A line of [categories_books.csv]. *)
Record CategoriesCsv : Type := {
  c_isbn13 : string;
  c_isbn10 : string;
  c_title : string;
  c_authors : string;
  c_categories : string;
  c_thumbnail : string;
  c_description : string;
  c_published_year : Z;
  c_average_rating : Q;
  c_num_pages : Z;
  c_ratings_count : Z
}.

(** ** Section 2 of the script: cleaning and merging *)

(** [goodreads] once [isbn] is renamed and [isbn13], [bookID] are deleted. *)
Record Goodreads : Type := {
  gr_isbn10 : option string;
  gr_title : option string;
  gr_authors : option string;
  gr_average_rating : Q;
  gr_num_pages : Z;
  gr_ratings_count : Z
}.

(** [categories] once the columns repeated in [goodreads] are deleted. *)
Record Categories : Type := {
  ca_isbn10 : option string;
  ca_categories : option string;
  ca_thumbnail : option string;
  ca_description : option string
}.

(** The ISBN cell is the text of the field. ([read_csv] chooses the type of
    a column from all its cells: a column of ISBNs made of digits only is
    stored as numbers, which are then compared and printed as numbers, and
    [pd.merge] refuses to join a column of numbers with a column of texts.
    Both files of the script have ISBNs that end in X.) *)
Definition clean_goodreads (x : GoodreadsCsv) : Goodreads :=
  {| gr_isbn10 := read_cell (g_isbn x);
     gr_title := read_cell (g_title x);
     gr_authors := read_cell (g_authors x);
     gr_average_rating := g_average_rating x;
     gr_num_pages := g_num_pages x;
     gr_ratings_count := g_ratings_count x |}.

Definition clean_categories (y : CategoriesCsv) : Categories :=
  {| ca_isbn10 := read_cell (c_isbn10 y);
     ca_categories := read_cell (c_categories y);
     ca_thumbnail := read_cell (c_thumbnail y);
     ca_description := read_cell (c_description y) |}.

(** A row of [all_books] after the merge and the four [astype] casts. *)
Record Book : Type := {
  isbn10 : option string;
  title : option string;
  authors : option string;
  average_rating : Q;
  ratings_count : Z;
  num_pages : Z;
  categories : string;
  thumbnail : option string;
  description : option string
}.

Definition join_row (x : Goodreads) (y : Categories) : Book :=
  {| isbn10 := gr_isbn10 x;
     title := gr_title x;
     authors := gr_authors x;
     average_rating := gr_average_rating x;
     ratings_count := gr_ratings_count x;
     num_pages := gr_num_pages x;
     categories := astype_str (ca_categories y);
     thumbnail := ca_thumbnail y;
     description := ca_description y |}.

(** [pd.merge(goodreads, categories, how="inner", on=["isbn10"])]: every
    left row is paired with every right row that carries the same key, in
    the order of the left rows. pandas matches a NaN key with a NaN key. *)
Definition merge (g : list Goodreads) (c : list Categories) : list Book :=
  x ← g; join_row x <$> filter (λ y, ca_isbn10 y = gr_isbn10 x) c.

Definition merged (gcsv : list GoodreadsCsv) (ccsv : list CategoriesCsv)
  : list Book :=
  merge (clean_goodreads <$> gcsv) (clean_categories <$> ccsv).

(** ** Section 3 of the script: grouping similar genres *)

Definition similar_genre : gmap string string :=
  list_to_map
    [ ("BIOGRAPHY & AUTOBIOGRAPHY", "Biography & Autobiography");
      ("Political science", "Political Science");
      ("Political leadership", "Political Science");
      ("Political fiction", "Political Science");
      ("Literary Criticism & Collections", "Literary Criticism");
      ("LITERARY CRITICISM", "Literary Criticism");
      ("JUVENILE FICTION", "Juvenile Fiction");
      ("Humorous stories, American", "Humor");
      ("Humorous stories", "Humor");
      ("Humorous stories, English", "Humor");
      ("Humorous fiction", "Humor");
      ("Comedy", "Humor");
      ("Detective and mystery stories, American",
       "Detective and mystery stories");
      ("Detective and mystery stories, English",
       "Detective and mystery stories") ].

(** [Series.replace(d)] on one cell: a cell equal to a key of [d] becomes
    the value stored under it, any other cell is kept. *)
Definition replace (d : gmap string string) (s : string) : string :=
  default s (d !! s).

Definition normalize_genre (b : Book) : Book :=
  {| isbn10 := isbn10 b;
     title := title b;
     authors := authors b;
     average_rating := average_rating b;
     ratings_count := ratings_count b;
     num_pages := num_pages b;
     categories := replace similar_genre (categories b);
     thumbnail := thumbnail b;
     description := description b |}.

(** ** Section 4 of the script: eliminating infrequent genres *)

(** The body of the counting loop. *)
Definition count_item (frequency : gmap string nat) (item : string)
  : gmap string nat :=
  match frequency !! item with
  | Some n => <[item := S n]> frequency
  | None => <[item := 1%nat]> frequency
  end.

(** The dictionary [frequency] when the loop over [cate_list] ends. *)
Definition count_genres (cate_list : list string) : gmap string nat :=
  foldl count_item ∅ cate_list.

(** A row once the column [genre_frequency] exists; [Series.map(dict)]
    leaves NaN ([None]) for a cell that is not a key. *)
Record Counted : Type := {
  book : Book;
  genre_frequency : option nat
}.

Definition add_genre_frequency (all_books : list Book) : list Counted :=
  let frequency := count_genres (categories <$> all_books) in
  (λ b, {| book := b; genre_frequency := frequency !! categories b |})
    <$> all_books.

(** [genre_frequency >= 5], false on NaN. *)
Definition frequent (r : Counted) : bool :=
  match genre_frequency r with
  | Some n => bool_decide (5 ≤ n)%nat
  | None => false
  end.

(** [categories != 'nan']. *)
Definition has_genre (r : Counted) : bool :=
  bool_decide (categories (book r) ≠ "nan").

Definition frequency_filter (all_books : list Book) : list Counted :=
  filter (λ r, has_genre r)
    (filter (λ r, frequent r) (add_genre_frequency all_books)).

(** ** Section 5 of the script: the Bayesian average *)

(** [Series.quantile(q)] with the default linear interpolation, on a
    column of integers: the value at position [(n - 1) * q] of the sorted
    column, interpolated between the two neighbouring rows. The column is
    not empty wherever a row uses the result. *)
Definition quantile (q : Q) (xs : list Z) : Q :=
  let s := merge_sort Z.le xs in
  let last := (length s - 1)%nat in
  let pos := (inject_Z (Z.of_nat last) * q)%Q in
  let lo := Z.to_nat (Qfloor pos) in
  let hi := (S lo `min` last)%nat in
  let gamma := (pos - inject_Z (Qfloor pos))%Q in
  let a := inject_Z (nth lo s 0) in
  let b := inject_Z (nth hi s 0) in
  (a + (b - a) * gamma)%Q.

Definition Qsum (xs : list Q) : Q := foldr Qplus 0%Q xs.

(** [Series.mean()]. *)
Definition mean (xs : list Q) : Q :=
  (Qsum xs / inject_Z (Z.of_nat (length xs)))%Q.

(** [Series.round()]: to the nearest integer, a tie to the even one. *)
Definition round_half_even (x : Q) : Z :=
  let f := Qfloor x in
  match (x - inject_Z f ?= 1 # 2)%Q with
  | Lt => f
  | Gt => f + 1
  | Eq => if Z.even f then f else f + 1
  end.

(** A row of the finished table. *)
Record Scored : Type := {
  counted : Counted;
  bayes_average : float64;
  rounded_rating : Z
}.

Definition the_book (r : Scored) : Book := book (counted r).

(** The expression of line 149 on one row. *)
Definition bayes (C m : Q) (b : Book) : float64 :=
  fdiv (average_rating b * inject_Z (ratings_count b) + C * m)%Q
       (inject_Z (ratings_count b) + C)%Q.

Definition score (all_books : list Counted) : list Scored :=
  let C := quantile (1 # 4) (ratings_count ∘ book <$> all_books) in
  let m := mean (average_rating ∘ book <$> all_books) in
  (λ r, {| counted := r;
           bayes_average := bayes C m (book r);
           rounded_rating := round_half_even (average_rating (book r)) |})
    <$> all_books.

(** The table [all_books] that the queries read. *)
Definition pipeline (gcsv : list GoodreadsCsv) (ccsv : list CategoriesCsv)
  : list Scored :=
  score (frequency_filter (normalize_genre <$> merged gcsv ccsv)).

(** ** Section 6 of the script: narrowing by page count, ranking, cutting *)

(** The three entries of the page-number select box. *)
Inductive Pages : Type :=
  | Below300
  | From300To499
  | From500.

Definition in_pages (pages : Pages) (r : Scored) : bool :=
  let n := num_pages (the_book r) in
  match pages with
  | Below300 => bool_decide (n < 300)
  | From300To499 => bool_decide (300 ≤ n) && bool_decide (n ≤ 499)
  | From500 => bool_decide (500 ≤ n)
  end.

(** [DataFrame.sort_values([col], ascending=[False])] with the default
    [kind='quicksort']: pandas hands the key column to numpy's quicksort,
    which is chosen by the numpy build and is not one of the kinds pandas
    documents as stable. What the call guarantees is the interface below:
    the same rows come back, keys from large to small, NaN keys last. *)
Class SortValues : Type := {
  sort_values_desc : ∀ {A : Type}, (A → float64) → list A → list A;
  sort_values_perm : ∀ (A : Type) (key : A → float64) (l : list A),
    sort_values_desc key l ≡ₚ l;
  sort_values_sorted : ∀ (A : Type) (key : A → float64) (l : list A),
    StronglySorted (λ a b, key_ge (key a) (key b)) (sort_values_desc key l)
}.

(** [DataFrame.head(n)]: the first [n] rows; for a negative [n], all rows
    but the last [-n]. *)
Definition head {A : Type} (n : Z) (l : list A) : list A :=
  if bool_decide (0 ≤ n) then take (Z.to_nat n) l
  else take (length l - Z.to_nat (- n)) l.

(** [displayed_df] of [narrowed_general]. *)
Definition displayed_df `{SortValues} (narrowed_set : list Scored)
    (pages : Pages) (number_rec : Z) : list Scored :=
  head number_rec
    (sort_values_desc bayes_average
       (filter (λ r, in_pages pages r) narrowed_set)).

(** The books [narrowed_general] shows, in the order it shows them: none
    when [user_input] is the empty string, else the rows of
    [displayed_df]. *)
Definition narrowed_general `{SortValues} (narrowed_set : list Scored)
    (user_input : string) (pages : Pages) (number_rec : Z) : list Scored :=
  if decide (user_input = EmptyString) then []
  else displayed_df narrowed_set pages number_rec.

(** ** Section 7 of the script: narrowing by author or by genre *)

(** [Series.str.contains(pat, case=False, na=False)] keeps the default
    [regex=True]: [pat] is compiled as a regular expression and searched,
    ignoring case, in every cell. The definitions below are Python's [re]
    on ASCII text, for the patterns made of ordinary characters and the
    dot: there a byte of a Rocq string is a character of the Python
    string, and the letters that differ in case only are A-Z and a-z. *)
Fixpoint chars (s : string) : list ascii :=
  match s with
  | EmptyString => []
  | String c s' => c :: chars s'
  end.

(** The text has ASCII characters only. *)
Definition is_ascii (s : string) : Prop :=
  Forall (λ c, (nat_of_ascii c < 128)%nat) (chars s).

Inductive PatItem : Type :=
  | PChar (c : ascii)
  | PDot.

(** The characters [re] gives a meaning to. *)
Definition re_special : list ascii :=
  [ "."; "^"; "$"; "*"; "+"; "?"; "{"; "}"; "["; "]"; "\"; "|"; "("; ")" ]%char.

(** The pattern as a sequence of items; [None] when it uses an operator
    other than the dot. *)
Fixpoint parse_plain (pat : string) : option (list PatItem) :=
  match pat with
  | EmptyString => Some []
  | String c rest =>
      if decide (c = "."%char) then (PDot ::.) <$> parse_plain rest
      else if decide (c ∈ re_special) then None
      else (PChar c ::.) <$> parse_plain rest
  end.

(** The lower-case letter of an ASCII letter. *)
Definition lower (c : ascii) : ascii :=
  let n := nat_of_ascii c in
  if bool_decide (65 ≤ n)%nat && bool_decide (n ≤ 90)%nat
  then ascii_of_nat (n + 32) else c.

Definition newline : ascii := "010"%char.

Definition item_matches (i : PatItem) (c : ascii) : bool :=
  match i with
  | PChar p => bool_decide (lower p = lower c)
  | PDot => bool_decide (c ≠ newline)
  end.

(** The pattern matches a prefix of [s]. *)
Fixpoint match_here (p : list PatItem) (s : string) : bool :=
  match p, s with
  | [], _ => true
  | _ :: _, EmptyString => false
  | i :: p', String c s' => item_matches i c && match_here p' s'
  end.

(** [re.search]: the pattern matches at some position of [s]. *)
Fixpoint re_search (p : list PatItem) (s : string) : bool :=
  match_here p s ||
  match s with
  | EmptyString => false
  | String _ s' => re_search p s'
  end.

(** The characters that repeat what stands before them. *)
Definition re_repeat : list ascii := [ "*"; "+"; "?" ]%char.

(** Python's [re] with [re.IGNORECASE], as [str.contains] uses it: a
    pattern either fails to compile ([re.error], [None]) or gives a search
    function. What is stated of it:
    - the empty pattern is found in every text;
    - an ASCII pattern of [parse_plain] compiles, and in an ASCII text it is
      found where [re_search] finds it;
    - a pattern that starts with a repetition does not compile (nothing to
      repeat).
    Any other pattern, and any text with a character beyond ASCII (where
    [re] compares characters rather than bytes and folds the case of
    letters such as É), is left to the library. *)
Class PyRe : Type := {
  re_search_icase : string → option (string → bool);
  re_search_icase_empty :
    ∃ search : string → bool,
      re_search_icase EmptyString = Some search ∧ ∀ s, search s = true;
  re_search_icase_plain : ∀ (pat : string) (p : list PatItem),
    parse_plain pat = Some p → is_ascii pat →
    ∃ search : string → bool,
      re_search_icase pat = Some search
      ∧ ∀ s, is_ascii s → search s = re_search p s;
  re_search_icase_repeat : ∀ (c : ascii) (rest : string),
    c ∈ re_repeat → re_search_icase (String c rest) = None
}.

(** One cell of [str.contains(pat, case=False, na=False)], the pattern
    compiled: a NaN cell counts as no match. *)
Definition str_contains (search : string → bool) (cell : option string)
  : bool :=
  match cell with
  | Some s => search s
  | None => false
  end.

(** [narrowed_author]; [None] when the pattern does not compile. *)
Definition narrowed_author `{PyRe} (all_books : list Scored) (author : string)
  : option (list Scored) :=
  search ← re_search_icase author;
  Some (filter (λ r, str_contains search (authors (the_book r))) all_books).

(** [narrowed_genre]. *)
Definition narrowed_genre (all_books : list Scored) (genre : string)
  : list Scored :=
  filter (λ r, categories (the_book r) = genre) all_books.

(** What the side bar sends. *)
Inductive Mode : Type :=
  | Author
  | Genre.

Record Query : Type := {
  mode : Mode;
  value : string;
  page_bucket : Pages;
  limit : Z
}.

(** One run of section 7: the books shown for a request, [None] when the
    script stops on an exception. *)
Definition run_query `{SortValues} `{PyRe} (all_books : list Scored)
    (q : Query) : option (list Scored) :=
  match mode q with
  | Author =>
      narrowed_set ← narrowed_author all_books (value q);
      Some (narrowed_general narrowed_set (value q) (page_bucket q) (limit q))
  | Genre =>
      Some (narrowed_general (narrowed_genre all_books (value q)) (value q)
              (page_bucket q) (limit q))
  end.

(** ** The words of the specification *)

(** The rows of a merged table under one ISBN. *)
Definition rows_with_isbn10 (k : option string) (all_books : list Book)
  : list Book :=
  filter (λ b, isbn10 b = k) all_books.

(** The labels the genre mapping produces. *)
Definition canonical_genres : list string :=
  [ "Biography & Autobiography"; "Political Science"; "Literary Criticism";
    "Juvenile Fiction"; "Humor"; "Detective and mystery stories" ].

(** How many cells of a column hold [k]. *)
Definition occurrences (k : string) (l : list string) : nat :=
  length (filter (λ s, s = k) l).

(** The table the genres are counted over. *)
Definition normalized (gcsv : list GoodreadsCsv) (ccsv : list CategoriesCsv)
  : list Book :=
  normalize_genre <$> merged gcsv ccsv.

(** The post-condition of the frequency filter on a row [r], the genres
    counted over [table]. *)
Definition kept (table : list Book) (r : Scored) : Prop :=
  (∃ n : nat,
      genre_frequency (counted r) = Some n
      ∧ (5 ≤ n)%nat
      ∧ n = occurrences (categories (the_book r)) (categories <$> table))
  ∧ categories (the_book r) ≠ EmptyString
  ∧ categories (the_book r) ≠ "nan".

(** [C] and [m] of section 5, read off the columns of a table. *)
Definition confidence (all_books : list Scored) : Q :=
  quantile (1 # 4) (ratings_count ∘ the_book <$> all_books).

Definition prior_mean (all_books : list Scored) : Q :=
  mean (average_rating ∘ the_book <$> all_books).

(** [c] is the percentile of level [p] (a fraction of 1) of the column
    [xs]: with the [n] cells put in ascending order and numbered from 0,
    it is the cell of rank [(n - 1) * p] when that rank is whole, and
    otherwise lies between the cells of the two ranks around it, in the
    proportion of the fractional part of the rank. *)
Definition percentile (p : Q) (xs : list Z) (c : Q) : Prop :=
  ∃ (s : list Z) (k : nat) (a b : Z),
    s ≡ₚ xs ∧ Sorted Z.le s
    ∧ (inject_Z (Z.of_nat k)
       <= inject_Z (Z.of_nat (length xs - 1)) * p)%Q
    ∧ (inject_Z (Z.of_nat (length xs - 1)) * p
       < inject_Z (Z.of_nat k) + 1)%Q
    ∧ s !! k = Some a
    ∧ s !! (S k `min` (length xs - 1))%nat = Some b
    ∧ (c == inject_Z a
            + (inject_Z b - inject_Z a)
              * (inject_Z (Z.of_nat (length xs - 1)) * p
                 - inject_Z (Z.of_nat k)))%Q.

(** [t] is the sum of the cells of [xs]. *)
Inductive sums_to : list Q → Q → Prop :=
  | sums_to_nil : sums_to [] 0%Q
  | sums_to_cons (x : Q) (xs : list Q) (t : Q) :
      sums_to xs t → sums_to (x :: xs) (x + t)%Q.

(** [m] is the arithmetic mean of the column [xs]: the sum of the cells
    shared out evenly over them. *)
Definition arithmetic_mean (xs : list Q) (m : Q) : Prop :=
  xs ≠ []
  ∧ ∃ t : Q, sums_to xs t ∧ (m * inject_Z (Z.of_nat (length xs)) == t)%Q.

(** Two [float64] results are the same number, or both NaN. *)
Definition same_float (x y : float64) : Prop :=
  match x, y with
  | Fin a, Fin b => (a == b)%Q
  | PInf, PInf | NInf, NInf | NaN, NaN => True
  | _, _ => False
  end.


(** The formula of the specification for [bayes_average], on a row. *)
Definition bayes_formula (C m : Q) (r : Scored) : float64 :=
  fdiv (average_rating (the_book r) * inject_Z (ratings_count (the_book r))
        + C * m)%Q
       (inject_Z (ratings_count (the_book r)) + C)%Q.

(** [z] is the integer nearest to [x], the even one of the two when [x]
    is half way. *)
Definition nearest_half_even (x : Q) (z : Z) : Prop :=
  (Qabs (x - inject_Z z) <= 1 # 2)%Q
  ∧ ((Qabs (x - inject_Z z) == 1 # 2)%Q → Z.even z = true).



(** No two rows of [cands] have the same place in the order of
    [sort_values]: of two different rows, one has the greater
    [bayes_average], or one has a number and the other NaN. *)
Definition no_ties (cands : list Scored) : Prop :=
  ∀ a b, a ∈ cands → b ∈ cands →
         key_ge (bayes_average a) (bayes_average b) →
         key_ge (bayes_average b) (bayes_average a) → a = b.

Fixpoint lower_str (s : string) : string :=
  match s with
  | EmptyString => EmptyString
  | String c s' => String (lower c) (lower_str s')
  end.

(** Case-insensitive substring containment, on ASCII text: some stretch
    of [hay] is [needle] up to letter case. *)
Definition ci_substring (needle hay : string) : Prop :=
  ∃ pre mid post : string,
    hay = pre +:+ mid +:+ post ∧ lower_str mid = lower_str needle.

(** The author typed has no character that [re] gives a meaning to. *)
Definition literal (pat : string) : Prop :=
  Forall (λ c, c ∉ re_special) (chars pat).

(** A row is among the candidates of author mode when [search] is what
    is looked for in the authors. *)
Definition by_author (search : string → Prop) (all_books : list Scored)
    (r : Scored) : Prop :=
  r ∈ all_books ∧ ∃ a : string, authors (the_book r) = Some a ∧ search a.

(** The authors of a row, if it has any, are ASCII text. *)
Definition ascii_authors (r : Scored) : Prop :=
  match authors (the_book r) with
  | Some a => is_ascii a
  | None => True
  end.

#[local] Instance literal_dec (pat : string) : Decision (literal pat).
Proof. unfold literal. apply _. Defined.

#[local] Instance is_ascii_dec (s : string) : Decision (is_ascii s).
Proof. unfold is_ascii. apply _. Defined.

#[local] Instance ascii_authors_dec (r : Scored) : Decision (ascii_authors r).
Proof. unfold ascii_authors. destruct (authors (the_book r)); apply _. Defined.

(** ** One sort and one pattern engine behind the two interfaces *)

Definition by_key {A : Type} (key : A → float64) : relation A :=
  λ a b, key_ge (key a) (key b).

(** An insertion sort on the keys: a row is put in front of the first row
    placed so far whose key is not greater than its own, so that rows with
    the same key stay in the order of the table. *)
Fixpoint insert_desc {A : Type} (key : A → float64) (x : A) (l : list A)
  : list A :=
  match l with
  | [] => [x]
  | y :: l' =>
      if key_ge (key x) (key y) then x :: y :: l'
      else y :: insert_desc key x l'
  end.

Definition insertion_sort_desc {A : Type} (key : A → float64) (l : list A)
  : list A :=
  foldr (insert_desc key) [] l.

(** The engine of the examples: [re_search] on the patterns of
    [parse_plain]. It refuses every other pattern, which Python does for
    some of them only; of those the examples use one, a plus sign alone,
    which Python refuses too. *)
Definition plain_search (pat : string) : option (string → bool) :=
  re_search <$> parse_plain pat.

(** ** Sample data *)

Definition goodreads_line (id : Z) (t a : string) (rating : Q) (isbn : string)
    (pages count : Z) : GoodreadsCsv :=
  {| g_bookID := id; g_title := t; g_authors := a;
     g_average_rating := rating; g_isbn := isbn;
     g_isbn13 := "978" +:+ isbn; g_num_pages := pages;
     g_ratings_count := count |}.

Definition categories_line (isbn genre : string) : CategoriesCsv :=
  {| c_isbn13 := "978" +:+ isbn; c_isbn10 := isbn; c_title := EmptyString;
     c_authors := EmptyString; c_categories := genre;
     c_thumbnail := EmptyString; c_description := EmptyString;
     c_published_year := 2000; c_average_rating := 0;
     c_num_pages := 0; c_ratings_count := 0 |}.

(** Five books of one genre once the labels are folded, and a sixth
    that the second file does not list. The fourth has no author and has
    not been rated; the second and the third have the same rating and the
    same number of ratings. *)
Definition shelf_goodreads : list GoodreadsCsv :=
  [ goodreads_line 1 "Eddy" "Di Fi" (9 # 2) "000000005X" 120 50;
    goodreads_line 2 "Airy" "Bob Hope" 4 "0000000001" 250 200;
    goodreads_line 3 "Bold" "Ann Lee" 4 "0000000002" 280 200;
    goodreads_line 4 "Calm" EmptyString (7 # 2) "0000000003" 320 0;
    goodreads_line 5 "Dusk" "Cy Young" (5 # 2) "0000000004" 510 1000;
    goodreads_line 6 "Fern" "Ed Em" 3 "0000000006" 90 7 ].

Definition shelf_categories : list CategoriesCsv :=
  [ categories_line "0000000001" "Comedy";
    categories_line "0000000002" "Humor";
    categories_line "0000000003" "Humorous fiction";
    categories_line "0000000004" "Humor";
    categories_line "000000005X" "Humor";
    categories_line "0000000007" "Humor" ].

Definition shelf : list Scored := pipeline shelf_goodreads shelf_categories.

(** A first file with the same ISBN on two lines. *)
Definition twice_goodreads : list GoodreadsCsv :=
  [ goodreads_line 1 "Airy" "Bob Hope" 4 "000000001X" 250 200;
    goodreads_line 2 "Airy (reprint)" "Bob Hope" 4 "000000001X" 260 3 ].

Definition twice_categories : list CategoriesCsv :=
  [ categories_line "000000001X" "Comedy" ].

(** The sample with a rating of 7 on its first line. *)
Definition off_scale_goodreads : list GoodreadsCsv :=
  [ goodreads_line 1 "Eddy" "Di Fi" 7 "000000005X" 120 50;
    goodreads_line 2 "Airy" "Bob Hope" 4 "0000000001" 250 200;
    goodreads_line 3 "Bold" "Ann Lee" 4 "0000000002" 280 200;
    goodreads_line 4 "Calm" EmptyString (7 # 2) "0000000003" 320 0;
    goodreads_line 5 "Dusk" "Cy Young" (5 # 2) "0000000004" 510 1000 ].

(** The sample before anyone has rated a book. *)
Definition unrated_goodreads : list GoodreadsCsv :=
  [ goodreads_line 1 "Eddy" "Di Fi" 0 "000000005X" 120 0;
    goodreads_line 2 "Airy" "Bob Hope" 0 "0000000001" 250 0;
    goodreads_line 3 "Bold" "Ann Lee" 0 "0000000002" 280 0;
    goodreads_line 4 "Calm" EmptyString 0 "0000000003" 320 0;
    goodreads_line 5 "Dusk" "Cy Young" 0 "0000000004" 510 0 ].

(** The sample with a better rating for its third book, which has as many
    ratings as the second. *)
Definition rated_goodreads : list GoodreadsCsv :=
  [ goodreads_line 1 "Eddy" "Di Fi" (9 # 2) "000000005X" 120 50;
    goodreads_line 2 "Airy" "Bob Hope" 4 "0000000001" 250 200;
    goodreads_line 3 "Bold" "Ann Lee" (9 # 2) "0000000002" 280 200;
    goodreads_line 4 "Calm" EmptyString (7 # 2) "0000000003" 320 0;
    goodreads_line 5 "Dusk" "Cy Young" (5 # 2) "0000000004" 510 1000 ].

(** The request for at most ten short books of the genre Humor. *)
Definition humor_query : Query :=
  {| mode := Genre; value := "Humor"; page_bucket := Below300; limit := 10 |}.

(** ** The list of genres of the side bar *)

(** The body of the loop that collects the genres: a category is added
    at the end unless the list has it. *)
Definition append_new (genre_list : list string) (category : string)
  : list string :=
  if decide (category ∈ genre_list) then genre_list
  else genre_list ++ [category].

(** Python's order on strings: character by character, by character code
    (on the UTF-8 bytes of a Rocq string this is the order by code point). *)
Definition str_le (s t : string) : Prop := String.leb s t = true.

#[local] Instance str_le_dec (s t : string) : Decision (str_le s t).
Proof. unfold str_le. apply _. Defined.

(** [sorted] on a list of strings. The order is total and antisymmetric,
    so the sorted list is the same whatever the sorting method. *)
Definition sorted (l : list string) : list string := merge_sort str_le l.

(** [genre_list] when section 4 ends. *)
Definition genre_list (all_books : list Counted) : list string :=
  sorted (foldl append_new [] (categories ∘ book <$> all_books)).

(** ** The candidates of a request *)

(** The table narrowed by author or by genre, as section 7 hands it to
    [narrowed_general]. *)
Definition narrowed `{PyRe} (all_books : list Scored) (q : Query)
  : option (list Scored) :=
  match mode q with
  | Author => narrowed_author all_books (value q)
  | Genre => Some (narrowed_genre all_books (value q))
  end.

(** ** What the page shows *)

(** The calls to streamlit that put something on the page outside the
    side bar, with their arguments; an argument of [st.write] is a text or
    NaN ([None]). *)
#[warnings="-register-all"] Inductive Output : Type :=
  | st_image (url : string)
  | st_title (text : string)
  | st_subheader (text : string)
  | st_markdown (text : string)
  | st_write (args : list (option string))
  | st_expander (label : string) (body : list Output).

(** Python's [str] on a text cell. *)
Definition str (cell : option string) : string := astype_str cell.

(** [display_image_to_user]. *)
Definition display_image_to_user (cell : option string) : list Output :=
  if decide (str cell = "nan") then []
  else match cell with
       | Some url => [st_image url]
       | None => []
       end.

(** [display_text_to_user], on the text [str(displayed_df[column][ind])]. *)
Definition display_text_to_user (bolded text : string) : list Output :=
  if decide (text = "nan") then []
  else [st_write [Some ("**" +:+ bolded +:+ ":**"); Some text]].

(** [s * n] on strings, empty for [n <= 0]. *)
Fixpoint str_times (s : string) (n : nat) : string :=
  match n with
  | O => EmptyString
  | S n' => s +:+ str_times s n'
  end.

Definition star : string := "⭐".

(** The body of the loop over [displayed_df.index], [count] already
    incremented. *)
Definition display_book (count : nat) (r : Scored) : list Output :=
  [st_subheader ("Book #" +:+ pretty count)]
  ++ display_image_to_user (thumbnail (the_book r))
  ++ [st_markdown (str_times star (Z.to_nat (rounded_rating r)));
      st_write [Some "**Recommendation:** "; title (the_book r);
                Some "by "; authors (the_book r)];
      st_expander "See Description"
        (if decide (str (description (the_book r)) = "nan") then []
         else [st_write [Some (str (description (the_book r)))]])]
  ++ display_text_to_user "Genre" (categories (the_book r))
  ++ display_text_to_user "Page count" (pretty (num_pages (the_book r)))
  ++ display_text_to_user "ISBN 10" (str (isbn10 (the_book r))).

(** The loop, [count] books shown so far. *)
Fixpoint display_books (count : nat) (rows : list Scored) : list Output :=
  match rows with
  | [] => []
  | r :: rows' => display_book (S count) r ++ display_books (S count) rows'
  end.

(** What [narrowed_general] puts on the page. *)
Definition narrowed_general_page `{SortValues} (narrowed_set : list Scored)
    (user_input : string) (pages : Pages) (number_rec : Z) : list Output :=
  if decide (user_input = EmptyString) then []
  else display_books 0 (displayed_df narrowed_set pages number_rec).

(** The first select box of the side bar. *)
Inductive Choice : Type :=
  | Blank
  | ByAuthor
  | ByGenre.

(** One run of the script over the finished table: the page, or [None]
    when the run stops on an exception. [value] is what is typed as author
    or selected as genre. *)
Definition page `{SortValues} `{PyRe} (all_books : list Scored)
    (author_or_genre : Choice) (value : string) (pages : Pages)
    (number_rec : Z) : option (list Output) :=
  let banner :=
    [st_image
       "https://www.mainejewish.org/wp-content/uploads/2017/07/Books-Banner.jpg";
     st_title "Book Recommender"] in
  match author_or_genre with
  | ByAuthor =>
      let hint :=
        if decide (value = EmptyString)
        then [st_subheader
                "Fill in the author on the right to get a recommendation!"]
        else [] in
      narrowed_set ← narrowed_author all_books value;
      Some (banner ++ hint
            ++ narrowed_general_page narrowed_set value pages number_rec)
  | ByGenre =>
      Some (banner
            ++ narrowed_general_page (narrowed_genre all_books value) value
                 pages number_rec)
  | Blank =>
      Some (banner
            ++ [st_subheader
                  "Fill in blanks on the right to get a recommendation!"])
  end.

(** Read-outs of a page: the headings, the pictures, and the texts
    written under a label. *)
Definition subheaders (out : list Output) : list string :=
  omap (λ o, match o with st_subheader t => Some t | _ => None end) out.

Definition images (out : list Output) : list string :=
  omap (λ o, match o with st_image url => Some url | _ => None end) out.

Definition written_under (label : string) (out : list Output) : list string :=
  omap (λ o, match o with
             | st_write [Some l; Some text] =>
                 if decide (l = "**" +:+ label +:+ ":**") then Some text
                 else None
             | _ => None
             end) out.

(** ** Read-outs of the tables *)

(** The cells of a row that [read_csv] filled: none of its texts is the
    text nan. *)
Definition read_from_csv (r : Scored) : Prop :=
  thumbnail (the_book r) ≠ Some "nan"
  ∧ isbn10 (the_book r) ≠ Some "nan"
  ∧ categories (the_book r) ≠ "nan".

(** The columns of a merged row that come from the first file. *)
Definition goodreads_part (b : Book) : Goodreads :=
  {| gr_isbn10 := isbn10 b;
     gr_title := title b;
     gr_authors := authors b;
     gr_average_rating := average_rating b;
     gr_num_pages := num_pages b;
     gr_ratings_count := ratings_count b |}.

(** The column [categories] of the finished table. *)
Definition genres_of (all_books : list Scored) : list string :=
  categories ∘ the_book <$> all_books.

(** * Properties *)

(** ** The definitions on examples *)

Example read_cell_empty : read_cell EmptyString = None.
Proof. reflexivity. Qed.

Example read_cell_text : read_cell "Humor" = Some "Humor".
Proof. reflexivity. Qed.

Example quantile_at_a_row : (quantile (1 # 4) [5; 1; 4; 2; 3]%Z == 2)%Q.
Proof. reflexivity. Qed.

Example quantile_between_rows :
  (quantile (1 # 4) [4; 3; 2; 1]%Z == 7 # 4)%Q.
Proof. reflexivity. Qed.

Example mean_of_three : (mean [4; 7 # 2; 9 # 2] == 4)%Q.
Proof. reflexivity. Qed.

Example round_half_even_ties :
  round_half_even (5 # 2) = 2 ∧ round_half_even (7 # 2) = 4
  ∧ round_half_even (9 # 2) = 4 ∧ round_half_even (392 # 100) = 4.
Proof. repeat split. Qed.

(** Scenario 1 of the specification: rating 4.0 with 200 ratings, C = 184
    and m = 3.9 give about 3.95. *)
Example bayes_scenario_1 :
  ∃ q : Q,
    fdiv (4 * 200 + 184 * (39 # 10))%Q (200 + 184)%Q = Fin q
    ∧ (395 # 100 <= q)%Q ∧ (q <= 396 # 100)%Q.
Proof. eexists. split; [reflexivity|]. split; discriminate. Qed.

(** Scenario 4 of the specification: the labels Comedy and Humorous
    fiction are folded into Humor and counted with it. *)
Example shelf_is_humor :
  Forall (λ r, categories (the_book r) = "Humor"
               ∧ genre_frequency (counted r) = Some 5%nat) shelf
  ∧ length shelf = 5%nat.
Proof. vm_compute. repeat constructor. Qed.

(** With no book rated, [C] is 0 and every [bayes_average] is 0/0. *)
Example unrated_is_nan :
  Forall (λ r, bayes_average r = NaN)
    (pipeline unrated_goodreads shelf_categories)
  ∧ length (pipeline unrated_goodreads shelf_categories) = 5%nat.
Proof. vm_compute. repeat constructor. Qed.

Example re_search_plain :
  (λ p, re_search p "Bob Hope") <$> parse_plain "bob" = Some true
  ∧ (λ p, re_search p "Bob Hope") <$> parse_plain "B.b" = Some true
  ∧ (λ p, re_search p "Abby") <$> parse_plain "B.b" = Some false
  ∧ parse_plain "(bob" = None.
Proof. repeat split. Qed.

(** ** The order on keys *)

Lemma key_ge_total (a b : float64) : key_ge a b ∨ key_ge b a.
Proof.
  destruct a as [x| | |], b as [y| | |]; simpl; auto.
  destruct (Qlt_le_dec x y) as [Hlt|Hle].
  - right. apply Is_true_true, Qle_bool_iff, Qlt_le_weak, Hlt.
  - left. apply Is_true_true, Qle_bool_iff, Hle.
Qed.

Lemma key_ge_trans (a b c : float64) : key_ge a b → key_ge b c → key_ge a c.
Proof.
  destruct a as [x| | |], b as [y| | |], c as [z| | |]; simpl; try done.
  rewrite !Is_true_true, !Qle_bool_iff. intros Hyx Hzy.
  by apply Qle_trans with y.
Qed.


Section by_key.
Context {A : Type} (key : A → float64).

Lemma insert_desc_perm (x : A) (l : list A) : insert_desc key x l ≡ₚ x :: l.
Proof.
  induction l as [|y l IH]; simpl; [done|].
  destruct (key_ge (key x) (key y)); [done|].
  rewrite IH. apply Permutation_swap.
Qed.

Lemma insertion_sort_desc_perm (l : list A) : insertion_sort_desc key l ≡ₚ l.
Proof.
  unfold insertion_sort_desc. induction l as [|x l IH]; simpl; [done|].
  by rewrite insert_desc_perm, IH.
Qed.

Lemma insert_desc_sorted (x : A) (l : list A) :
  StronglySorted (by_key key) l →
  StronglySorted (by_key key) (insert_desc key x l).
Proof.
  induction 1 as [|y l Hl IH Hy]; simpl.
  - repeat constructor.
  - destruct (key_ge (key x) (key y)) eqn:Hxy.
    + constructor; [by constructor|]. constructor.
      * unfold by_key. by rewrite Hxy.
      * eapply Forall_impl; [exact Hy|]. intros z Hz. unfold by_key in *.
        apply key_ge_trans with (key y); [by rewrite Hxy|done].
    + constructor; [done|]. rewrite insert_desc_perm. constructor; [|done].
      unfold by_key. destruct (key_ge_total (key x) (key y)) as [Hge|Hge];
        [by rewrite Hxy in Hge|done].
Qed.

Lemma insertion_sort_desc_sorted (l : list A) :
  StronglySorted (by_key key) (insertion_sort_desc key l).
Proof.
  unfold insertion_sort_desc. induction l as [|x l IH]; simpl.
  - constructor.
  - by apply insert_desc_sorted.
Qed.

End by_key.

(** The insertion sort is one of the sorts [sort_values] may be. *)
Definition insertion_sort_values : SortValues :=
  {| sort_values_desc := @insertion_sort_desc;
     sort_values_perm := @insertion_sort_desc_perm;
     sort_values_sorted := @insertion_sort_desc_sorted |}.

Lemma plain_search_empty :
  ∃ search : string → bool,
    plain_search EmptyString = Some search ∧ ∀ s, search s = true.
Proof. exists (re_search []). split; [done|]. by intros []. Qed.

Lemma plain_search_plain (pat : string) (p : list PatItem) :
  parse_plain pat = Some p → is_ascii pat →
  ∃ search : string → bool,
    plain_search pat = Some search
    ∧ ∀ s, is_ascii s → search s = re_search p s.
Proof.
  intros Hp _. exists (re_search p). unfold plain_search. by rewrite Hp.
Qed.

Lemma plain_search_repeat (c : ascii) (rest : string) :
  c ∈ re_repeat → plain_search (String c rest) = None.
Proof.
  unfold re_repeat, plain_search. rewrite !elem_of_cons, elem_of_nil.
  by intros [->|[->|[->|[]]]].
Qed.

(** [plain_search] does what the interface says of Python's [re]. *)
Definition plain_re : PyRe :=
  {| re_search_icase := plain_search;
     re_search_icase_empty := plain_search_empty;
     re_search_icase_plain := plain_search_plain;
     re_search_icase_repeat := plain_search_repeat |}.

(** ** The merge *)

Lemma merge_cons (x : Goodreads) (g : list Goodreads) (c : list Categories) :
  merge (x :: g) c
  = (join_row x <$> filter (λ y, ca_isbn10 y = gr_isbn10 x) c) ++ merge g c.
Proof. reflexivity. Qed.

Lemma elem_of_merge (g : list Goodreads) (c : list Categories) (b : Book) :
  b ∈ merge g c ↔
  ∃ x y, x ∈ g ∧ y ∈ c ∧ ca_isbn10 y = gr_isbn10 x ∧ b = join_row x y.
Proof.
  unfold merge. rewrite list_elem_of_bind. split.
  - intros (x & Hb & Hx). apply list_elem_of_fmap in Hb as (y & -> & Hy).
    apply list_elem_of_filter in Hy as [Hk Hy]. by exists x, y.
  - intros (x & y & Hx & Hy & Hk & ->). exists x. split; [|done].
    apply list_elem_of_fmap_2. by apply list_elem_of_filter.
Qed.

(** The rows that one left row contributes under a key. *)
Lemma rows_with_isbn10_joined (k : option string) (x : Goodreads)
    (c : list Categories) :
  length (rows_with_isbn10 k
            (join_row x <$> filter (λ y, ca_isbn10 y = gr_isbn10 x) c))
  = if decide (gr_isbn10 x = k)
    then length (filter (λ y, ca_isbn10 y = k) c) else 0%nat.
Proof.
  unfold rows_with_isbn10. induction c as [|y c IH]; simpl.
  - by case_decide.
  - rewrite !filter_cons. destruct (decide (ca_isbn10 y = gr_isbn10 x)) as [Hy|Hy].
    + rewrite fmap_cons, filter_cons. simpl.
      repeat case_decide; simpl; congruence.
    + repeat case_decide; simpl; congruence.
Qed.

Lemma merge_count (g : list Goodreads) (c : list Categories)
    (k : option string) :
  length (rows_with_isbn10 k (merge g c))
  = (length (filter (λ x, gr_isbn10 x = k) g)
     * length (filter (λ y, ca_isbn10 y = k) c))%nat.
Proof.
  induction g as [|x g IH]; [done|].
  rewrite merge_cons. unfold rows_with_isbn10 in *.
  rewrite filter_app, length_app, IH, filter_cons.
  pose proof (rows_with_isbn10_joined k x c) as Hx.
  unfold rows_with_isbn10 in Hx. rewrite Hx.
  case_decide; simpl; lia.
Qed.

(** ** C4: the merge is an inner join *)

(** C4, as the code has it. A row of the merged table is a row of the
    first table joined with a row of the second table whose [isbn10] cell
    is the same, and every such pair gives a row: nothing is made up for
    a row that the other table does not match.
    - A merged row that has an ISBN has an ISBN that both tables hold.
    - A missing ISBN is matched with a missing ISBN: a row without ISBN of
      the first table is joined with every row without ISBN of the second,
      and a merged row without ISBN comes from two such rows.
    - The number of merged rows under an ISBN, or without ISBN, is the
      product of the numbers of such rows in the two tables: one when each
      table has exactly one, none when one table has none. *)
Theorem merge_inner_join (g : list Goodreads) (c : list Categories) :
  (∀ b, b ∈ merge g c ↔
        ∃ x y, x ∈ g ∧ y ∈ c ∧ ca_isbn10 y = gr_isbn10 x ∧ b = join_row x y)
  ∧ (∀ b k, b ∈ merge g c → isbn10 b = Some k →
            (∃ x, x ∈ g ∧ gr_isbn10 x = Some k)
            ∧ (∃ y, y ∈ c ∧ ca_isbn10 y = Some k))
  ∧ (∀ x y, x ∈ g → y ∈ c → gr_isbn10 x = None → ca_isbn10 y = None →
            join_row x y ∈ merge g c ∧ isbn10 (join_row x y) = None)
  ∧ (∀ b, b ∈ merge g c → isbn10 b = None →
          ∃ x y, x ∈ g ∧ y ∈ c ∧ gr_isbn10 x = None ∧ ca_isbn10 y = None
                 ∧ b = join_row x y)
  ∧ (∀ k, length (rows_with_isbn10 k (merge g c))
          = (length (filter (λ x, gr_isbn10 x = k) g)
             * length (filter (λ y, ca_isbn10 y = k) c))%nat)
  ∧ (∀ k, length (filter (λ x, gr_isbn10 x = k) g) = 1%nat →
          length (filter (λ y, ca_isbn10 y = k) c) = 1%nat →
          length (rows_with_isbn10 k (merge g c)) = 1%nat)
  ∧ (∀ k, filter (λ x, gr_isbn10 x = k) g = []
          ∨ filter (λ y, ca_isbn10 y = k) c = [] →
          rows_with_isbn10 k (merge g c) = []).
Proof.
  split_and!.
  - apply elem_of_merge.
  - intros b k (x & y & Hx & Hy & Hk & ->)%elem_of_merge. simpl.
    intros Hxk. split; [by exists x|]. exists y. by rewrite Hk.
  - intros x y Hx Hy Hxk Hyk. split; [|done].
    apply elem_of_merge. exists x, y. by rewrite Hxk, Hyk.
  - intros b (x & y & Hx & Hy & Hk & ->)%elem_of_merge. simpl.
    intros Hxk. exists x, y. by rewrite Hk, Hxk.
  - apply merge_count.
  - intros k Hg Hc. rewrite merge_count, Hg, Hc. done.
  - intros k Hk. apply length_zero_iff_nil. rewrite merge_count.
    destruct Hk as [-> | ->]; simpl; lia.
Qed.

(** C4 as stated fails when an ISBN is on two lines of a file: both lines
    are joined, and the ISBN is on two rows of the merged table. *)
Lemma merge_isbn10_twice :
  ¬ (∀ b, b ∈ merged twice_goodreads twice_categories →
          length (rows_with_isbn10 (isbn10 b)
                    (merged twice_goodreads twice_categories)) = 1%nat).
Proof.
  intros Hclaim.
  pose (b := join_row (clean_goodreads (goodreads_line 1 "Airy" "Bob Hope" 4
                                          "000000001X" 250 200))
                      (clean_categories (categories_line "000000001X" "Comedy"))).
  assert (Hb : b ∈ merged twice_goodreads twice_categories)
    by (vm_compute; left).
  apply Hclaim in Hb. vm_compute in Hb. discriminate.
Qed.

(** ** C7: the genre mapping *)

Lemma similar_genre_canonical (s v : string) :
  similar_genre !! s = Some v → v ∈ canonical_genres.
Proof.
  intros Hv. apply elem_of_list_to_map_2 in Hv.
  unfold canonical_genres.
  repeat (apply elem_of_cons in Hv as [Hv|Hv];
          [injection Hv as -> ->; set_solver|]).
  by apply elem_of_nil in Hv.
Qed.

Lemma canonical_not_key (v : string) :
  v ∈ canonical_genres → similar_genre !! v = None.
Proof.
  unfold canonical_genres. intros Hv.
  repeat (apply elem_of_cons in Hv as [->|Hv]; [by vm_compute|]).
  by apply elem_of_nil in Hv.
Qed.

Lemma canonical_nonempty (v : string) :
  v ∈ canonical_genres → v ≠ EmptyString ∧ v ≠ "nan".
Proof.
  unfold canonical_genres. intros Hv.
  repeat (apply elem_of_cons in Hv as [->|Hv]; [done|]).
  by apply elem_of_nil in Hv.
Qed.

(** C7. Replacing twice is replacing once, on a cell and on a row: a label
    the mapping produces is not one of its keys, so it maps to itself, and
    a label that is not a key is kept. *)
Theorem normalize_genre_idempotent (s : string) (b : Book) :
  replace similar_genre (replace similar_genre s) = replace similar_genre s
  ∧ normalize_genre (normalize_genre b) = normalize_genre b
  ∧ (s ∈ canonical_genres → replace similar_genre s = s)
  ∧ (similar_genre !! s = None → replace similar_genre s = s).
Proof.
  assert (Hcell : ∀ t, replace similar_genre (replace similar_genre t)
                       = replace similar_genre t).
  { intros t. unfold replace at 2 3.
    destruct (similar_genre !! t) as [v|] eqn:Ht; simpl.
    - unfold replace.
      by rewrite (canonical_not_key v (similar_genre_canonical t v Ht)).
    - unfold replace. by rewrite Ht. }
  split_and!.
  - apply Hcell.
  - unfold normalize_genre. simpl. by rewrite Hcell.
  - intros Hs. unfold replace. by rewrite (canonical_not_key s Hs).
  - intros Hs. unfold replace. by rewrite Hs.
Qed.

(** ** The counting loop *)

Lemma count_item_lookup (m : gmap string nat) (a k : string) :
  count_item m a !! k
  = if decide (a = k) then Some (S (default 0%nat (m !! k))) else m !! k.
Proof.
  unfold count_item. case_decide as Hak.
  - subst a. destruct (m !! k); simpl; by rewrite lookup_insert_eq.
  - destruct (m !! a); by rewrite lookup_insert_ne.
Qed.

Lemma foldl_count_item (l : list string) (m : gmap string nat) (k : string) :
  foldl count_item m l !! k
  = match occurrences k l with
    | O => m !! k
    | S n => Some (default 0%nat (m !! k) + S n)%nat
    end.
Proof.
  revert m. induction l as [|a l IH]; intros m; [done|].
  simpl. rewrite IH, count_item_lookup. unfold occurrences.
  rewrite filter_cons. case_decide as Hak; simpl.
  - destruct (length _); simpl; f_equal; lia.
  - done.
Qed.

Lemma count_genres_lookup (l : list string) (k : string) :
  count_genres l !! k
  = match occurrences k l with
    | O => None
    | S n => Some (S n)
    end.
Proof.
  unfold count_genres. rewrite foldl_count_item, lookup_empty.
  by destruct (occurrences k l).
Qed.

(** ** What a query returns comes from the table *)

Lemma head_prefix {A : Type} (n : Z) (l : list A) :
  ∃ k : nat, head n l = take k l.
Proof. unfold head. case_bool_decide; eauto. Qed.

Lemma head_subseteq {A : Type} (n : Z) (l : list A) : head n l ⊆ l.
Proof. destruct (head_prefix n l) as [k ->]. apply subseteq_take. Qed.

Section queries.
Context `{SortValues} `{PyRe}.

Lemma displayed_df_subseteq (narrowed_set : list Scored) (pages : Pages)
    (number_rec : Z) :
  displayed_df narrowed_set pages number_rec ⊆ narrowed_set.
Proof.
  unfold displayed_df. intros r Hr. apply head_subseteq in Hr.
  rewrite sort_values_perm in Hr.
  by apply list_elem_of_filter in Hr as [_ Hr].
Qed.

Lemma narrowed_general_subseteq (narrowed_set : list Scored)
    (user_input : string) (pages : Pages) (number_rec : Z) :
  narrowed_general narrowed_set user_input pages number_rec ⊆ narrowed_set.
Proof.
  unfold narrowed_general. case_decide.
  - apply list_subseteq_nil.
  - apply displayed_df_subseteq.
Qed.

Lemma narrowed_author_subseteq (all_books cands : list Scored)
    (author : string) :
  narrowed_author all_books author = Some cands → cands ⊆ all_books.
Proof.
  unfold narrowed_author. destruct (re_search_icase author); simpl; [|done].
  intros [= <-] r Hr. by apply list_elem_of_filter in Hr as [_ Hr].
Qed.

Lemma narrowed_subseteq (all_books narrowed_set : list Scored) (q : Query) :
  narrowed all_books q = Some narrowed_set → narrowed_set ⊆ all_books.
Proof.
  unfold narrowed. destruct (mode q).
  - apply narrowed_author_subseteq.
  - intros [= <-] r Hr. by apply list_elem_of_filter in Hr as [_ Hr].
Qed.

Lemma run_query_narrowed (all_books : list Scored) (q : Query) :
  run_query all_books q
  = narrowed_set ← narrowed all_books q;
    Some (narrowed_general narrowed_set (value q) (page_bucket q) (limit q)).
Proof. unfold run_query, narrowed. by destruct (mode q). Qed.

Lemma run_query_subseteq (all_books res : list Scored) (q : Query) :
  run_query all_books q = Some res → res ⊆ all_books.
Proof.
  unfold run_query. destruct (mode q).
  - destruct (narrowed_author all_books (value q)) as [cands|] eqn:Hc;
      simpl; [|done].
    intros [= <-]. etrans; [apply narrowed_general_subseteq|].
    by eapply narrowed_author_subseteq.
  - intros [= <-]. etrans; [apply narrowed_general_subseteq|].
    intros r Hr. by apply list_elem_of_filter in Hr as [_ Hr].
Qed.
End queries.

(** ** C2: after the frequency filter *)

Lemma read_cell_Some (s t : string) :
  read_cell s = Some t → t = s ∧ s ∉ na_values.
Proof. unfold read_cell. case_decide; [done|]. by intros [= <-]. Qed.

Lemma astype_str_read_cell_nonempty (s : string) :
  astype_str (read_cell s) ≠ EmptyString.
Proof.
  destruct (read_cell s) as [t|] eqn:Hs; simpl; [|done].
  apply read_cell_Some in Hs as [-> Hs]. intros ->. apply Hs.
  unfold na_values. left.
Qed.

Lemma replace_similar_genre_nonempty (s : string) :
  s ≠ EmptyString → replace similar_genre s ≠ EmptyString.
Proof.
  intros Hs. unfold replace.
  destruct (similar_genre !! s) as [v|] eqn:Hv; simpl; [|done].
  by apply canonical_nonempty, similar_genre_canonical with s.
Qed.

Lemma normalized_categories_nonempty (gcsv : list GoodreadsCsv)
    (ccsv : list CategoriesCsv) (b : Book) :
  b ∈ normalized gcsv ccsv → categories b ≠ EmptyString.
Proof.
  unfold normalized, merged.
  intros (b0 & -> & Hb0)%list_elem_of_fmap.
  apply elem_of_merge in Hb0 as (x & y & _ & Hy & _ & ->).
  apply list_elem_of_fmap in Hy as (y0 & -> & _). simpl.
  apply replace_similar_genre_nonempty, astype_str_read_cell_nonempty.
Qed.

Lemma elem_of_score (all_books : list Counted) (r : Scored) :
  r ∈ score all_books → counted r ∈ all_books.
Proof.
  unfold score. intros (c & -> & Hc)%list_elem_of_fmap. done.
Qed.

Lemma elem_of_frequency_filter (table : list Book) (c : Counted) :
  c ∈ frequency_filter table →
  book c ∈ table
  ∧ genre_frequency c = count_genres (categories <$> table) !! categories (book c)
  ∧ frequent c ∧ has_genre c.
Proof.
  unfold frequency_filter. intros [Hg Hc]%list_elem_of_filter.
  apply list_elem_of_filter in Hc as [Hf Hc].
  unfold add_genre_frequency in Hc.
  apply list_elem_of_fmap in Hc as (b & -> & Hb). done.
Qed.

Lemma pipeline_kept (gcsv : list GoodreadsCsv) (ccsv : list CategoriesCsv)
    (r : Scored) :
  r ∈ pipeline gcsv ccsv → kept (normalized gcsv ccsv) r.
Proof.
  unfold pipeline. fold (normalized gcsv ccsv).
  intros Hr%elem_of_score.
  apply elem_of_frequency_filter in Hr as (Hb & Hn & Hf & Hg).
  unfold kept, the_book. split_and!.
  - unfold frequent in Hf. rewrite count_genres_lookup in Hn.
    destruct (genre_frequency (counted r)) as [n|]; [|done].
    exists n. apply bool_decide_unpack in Hf. split_and!; [done..|].
    destruct (occurrences _ _); congruence.
  - by eapply normalized_categories_nonempty.
  - by apply bool_decide_unpack in Hg.
Qed.

(** C2. Every row of the finished table has a [genre_frequency] of at
    least 5, which is the number of rows of the normalized table with its
    category, and a category that is neither empty nor the text nan; so
    has every row that a query returns. *)
Theorem frequency_filter_postcondition `{SortValues} `{PyRe}
    (gcsv : list GoodreadsCsv) (ccsv : list CategoriesCsv) :
  Forall (kept (normalized gcsv ccsv)) (pipeline gcsv ccsv)
  ∧ ∀ (q : Query) (res : list Scored),
      run_query (pipeline gcsv ccsv) q = Some res →
      Forall (kept (normalized gcsv ccsv)) res.
Proof.
  split.
  - apply Forall_forall. intros r. apply pipeline_kept.
  - intros q res Hq. apply Forall_forall. intros r Hr.
    apply pipeline_kept. by eapply run_query_subseteq.
Qed.

(** ** C1, C8: the Bayesian average *)

Lemma counted_score (all_books : list Counted) :
  counted <$> score all_books = all_books.
Proof.
  unfold score. rewrite <- list_fmap_compose.
  induction all_books as [|c l IH]; [done|]. simpl. by f_equal.
Qed.

Lemma confidence_score (all_books : list Counted) :
  confidence (score all_books)
  = quantile (1 # 4) (ratings_count ∘ book <$> all_books).
Proof.
  unfold confidence, the_book.
  change (ratings_count ∘ (λ r, book (counted r)))
    with ((ratings_count ∘ book) ∘ counted).
  by rewrite list_fmap_compose, counted_score.
Qed.

Lemma prior_mean_score (all_books : list Counted) :
  prior_mean (score all_books)
  = mean (average_rating ∘ book <$> all_books).
Proof.
  unfold prior_mean, the_book.
  change (average_rating ∘ (λ r, book (counted r)))
    with ((average_rating ∘ book) ∘ counted).
  by rewrite list_fmap_compose, counted_score.
Qed.

Lemma score_bayes_average (all_books : list Counted) (r : Scored) :
  r ∈ score all_books →
  bayes_average r
  = bayes (confidence (score all_books)) (prior_mean (score all_books))
          (the_book r).
Proof.
  rewrite confidence_score, prior_mean_score. unfold score.
  by intros (c & -> & _)%list_elem_of_fmap.
Qed.

(** *** The quantile is the percentile *)

Lemma Qfloor_bounds (x : Q) :
  (inject_Z (Qfloor x) <= x)%Q ∧ (x < inject_Z (Qfloor x) + 1)%Q.
Proof.
  split; [apply Qfloor_le|].
  pose proof (Qlt_floor x) as Hx. by rewrite inject_Z_plus in Hx.
Qed.

Lemma Qfloor_between (x : Q) (n : Z) :
  (0 <= x)%Q → (x <= inject_Z n)%Q → 0 ≤ Qfloor x ≤ n.
Proof.
  intros H0 Hn. split.
  - change 0 with (Qfloor (inject_Z 0)). by apply Qfloor_resp_le.
  - rewrite <- (Qfloor_Z n). by apply Qfloor_resp_le.
Qed.

Lemma Qfloor_unique (x : Q) (z : Z) :
  (inject_Z z <= x)%Q → (x < inject_Z z + 1)%Q → Qfloor x = z.
Proof.
  intros Hlo Hhi. destruct (Qfloor_bounds x) as [Hfl Hfh].
  assert (inject_Z (Qfloor x) < inject_Z (z + 1))%Q as H1.
  { rewrite inject_Z_plus. change (inject_Z 1) with 1%Q. lra. }
  assert (inject_Z z < inject_Z (Qfloor x + 1))%Q as H2.
  { rewrite inject_Z_plus. change (inject_Z 1) with 1%Q. lra. }
  rewrite <- Zlt_Qlt in H1, H2. lia.
Qed.

#[local] Instance Z_le_antisymm : AntiSymm (=) Z.le.
Proof. intros x y. lia. Qed.

#[local] Instance Z_le_transitive : Transitive Z.le.
Proof. intros x y z. lia. Qed.

#[local] Instance Z_le_total : Total Z.le.
Proof. intros x y. lia. Qed.

Lemma merge_sort_Z_perm (xs ys : list Z) :
  xs ≡ₚ ys → merge_sort Z.le xs = merge_sort Z.le ys.
Proof.
  intros Hperm. apply (Sorted_unique Z.le).
  - apply Sorted_merge_sort, _.
  - apply Sorted_merge_sort, _.
  - by rewrite !merge_sort_Permutation.
Qed.

Lemma length_merge_sort_Z (xs : list Z) :
  length (merge_sort Z.le xs) = length xs.
Proof. by rewrite merge_sort_Permutation. Qed.

Lemma length_positive {A : Type} (xs : list A) :
  xs ≠ [] → (0 < inject_Z (Z.of_nat (length xs)))%Q.
Proof.
  intros Hne. change 0%Q with (inject_Z 0). rewrite <- Zlt_Qlt.
  destruct xs; [done|simpl; lia].
Qed.

(** What [Series.quantile] computes is the percentile of that level. *)
Lemma quantile_percentile (q : Q) (xs : list Z) :
  xs ≠ [] → (0 <= q)%Q → (q <= 1)%Q → percentile q xs (quantile q xs).
Proof.
  intros Hne Hq0 Hq1. unfold percentile, quantile.
  rewrite length_merge_sort_Z.
  set (s := merge_sort Z.le xs).
  assert (length s = length xs) as Hlen by apply length_merge_sort_Z.
  assert (0 < length xs)%nat as Hpos by (destruct xs; [done|simpl; lia]).
  set (last := (length xs - 1)%nat) in *.
  set (pos := (inject_Z (Z.of_nat last) * q)%Q).
  assert (0 <= inject_Z (Z.of_nat last))%Q as Hlast0.
  { change 0%Q with (inject_Z 0). rewrite <- Zle_Qle. lia. }
  assert (0 <= pos)%Q as Hpos0 by (unfold pos; nra).
  assert (pos <= inject_Z (Z.of_nat last))%Q as Hpos1 by (unfold pos; nra).
  destruct (Qfloor_between pos _ Hpos0 Hpos1) as [Hf0 Hf1].
  destruct (Qfloor_bounds pos) as [Hfl Hfh].
  set (f := Qfloor pos) in *.
  destruct (lookup_lt_is_Some_2 s (Z.to_nat f)) as [a Ha]; [lia|].
  destruct (lookup_lt_is_Some_2 s (S (Z.to_nat f) `min` last)) as [b Hb];
    [lia|].
  rewrite (nth_lookup_Some _ _ _ _ Ha), (nth_lookup_Some _ _ _ _ Hb).
  exists s, (Z.to_nat f), a, b. rewrite Z2Nat.id by lia.
  split_and!; [apply merge_sort_Permutation|apply Sorted_merge_sort, _
              |done..|reflexivity].
Qed.

(** A column has one percentile of a level, the one [Series.quantile]
    computes. *)
Lemma percentile_unique (q : Q) (xs : list Z) (c : Q) :
  percentile q xs c → (c == quantile q xs)%Q.
Proof.
  intros (s & k & a & b & Hperm & Hsorted & Hlo & Hhi & Ha & Hb & ->).
  assert (s = merge_sort Z.le xs) as ->.
  { apply (Sorted_unique Z.le); [done|apply Sorted_merge_sort, _|].
    by rewrite merge_sort_Permutation. }
  unfold quantile. rewrite length_merge_sort_Z.
  rewrite (Qfloor_unique _ _ Hlo Hhi), Nat2Z.id.
  rewrite (nth_lookup_Some _ _ _ _ Ha), (nth_lookup_Some _ _ _ _ Hb).
  reflexivity.
Qed.

Lemma percentile_level (p p' : Q) (xs : list Z) (c : Q) :
  (p == p')%Q → percentile p xs c → percentile p' xs c.
Proof.
  intros Hp (s & k & a & b & Hperm & Hsorted & Hlo & Hhi & Ha & Hb & Hc).
  exists s, k, a, b. rewrite Hp in Hlo, Hhi, Hc. done.
Qed.

(** *** The mean is the arithmetic mean *)

Lemma sums_to_Qsum (xs : list Q) (t : Q) : sums_to xs t ↔ t = Qsum xs.
Proof.
  split.
  - induction 1 as [|x xs t _ IH]; [done|]. by rewrite IH.
  - intros ->. induction xs as [|x xs IH]; [constructor|].
    change (Qsum (x :: xs)) with (x + Qsum xs)%Q. by constructor.
Qed.

Lemma mean_arithmetic_mean (xs : list Q) :
  xs ≠ [] → arithmetic_mean xs (mean xs).
Proof.
  intros Hne. split; [done|]. exists (Qsum xs). split.
  - by apply sums_to_Qsum.
  - pose proof (length_positive xs Hne) as Hn. unfold mean. field. lra.
Qed.

Lemma arithmetic_mean_unique (xs : list Q) (m : Q) :
  arithmetic_mean xs m → (m == mean xs)%Q.
Proof.
  intros (Hne & t & Ht%sums_to_Qsum & Hm). subst t.
  pose proof (length_positive xs Hne) as Hn. unfold mean.
  rewrite <- Hm. field. lra.
Qed.

(** *** The division on equal numbers *)

Lemma Qeq_bool_comp (x y : Q) :
  (x == y)%Q → Qeq_bool x 0 = Qeq_bool y 0.
Proof.
  intros Hxy. destruct (Qeq_bool x 0) eqn:Ex, (Qeq_bool y 0) eqn:Ey;
    try done.
  - apply Qeq_bool_iff in Ex.
    assert (Qeq_bool y 0 = true) as Ey'
      by (apply Qeq_bool_iff; by rewrite <- Hxy).
    congruence.
  - apply Qeq_bool_iff in Ey.
    assert (Qeq_bool x 0 = true) as Ex'
      by (apply Qeq_bool_iff; by rewrite Hxy).
    congruence.
Qed.

Lemma Qle_bool_comp (x y : Q) :
  (x == y)%Q → Qle_bool 0 x = Qle_bool 0 y.
Proof.
  intros Hxy. destruct (Qle_bool 0 x) eqn:Ex, (Qle_bool 0 y) eqn:Ey;
    try done.
  - apply Qle_bool_iff in Ex.
    assert (Qle_bool 0 y = true) as Ey'
      by (apply Qle_bool_iff; by rewrite <- Hxy).
    congruence.
  - apply Qle_bool_iff in Ey.
    assert (Qle_bool 0 x = true) as Ex'
      by (apply Qle_bool_iff; by rewrite Hxy).
    congruence.
Qed.

Lemma fdiv_same_float (n n' d d' : Q) :
  (n == n')%Q → (d == d')%Q → same_float (fdiv n d) (fdiv n' d').
Proof.
  intros Hn Hd. unfold fdiv.
  rewrite (Qeq_bool_comp d d' Hd), (Qeq_bool_comp n n' Hn),
    (Qle_bool_comp n n' Hn).
  destruct (Qeq_bool d' 0); [by repeat case_match|].
  simpl. by rewrite Hn, Hd.
Qed.

Lemma fmap_nonempty {A B : Type} (f : A → B) (l : list A) :
  l ≠ [] → f <$> l ≠ [].
Proof. by destruct l. Qed.

(** C1. The finished table has the rows the frequency filter kept. When
    it has a row, the number [C] the script computes is the 25th percentile
    of its column [ratings_count] and [m] is the arithmetic mean of its
    column [average_rating]. On every row [bayes_average] is
    [(average_rating * ratings_count + C * m) / (ratings_count + C)] for
    that one [C] and that one [m], and the same number for any [C] and [m]
    that are the percentile and the mean. *)
Theorem bayes_average_formula (gcsv : list GoodreadsCsv)
    (ccsv : list CategoriesCsv) :
  counted <$> pipeline gcsv ccsv = frequency_filter (normalized gcsv ccsv)
  ∧ (pipeline gcsv ccsv ≠ [] →
     percentile (25 # 100) (ratings_count ∘ the_book <$> pipeline gcsv ccsv)
       (confidence (pipeline gcsv ccsv))
     ∧ arithmetic_mean (average_rating ∘ the_book <$> pipeline gcsv ccsv)
         (prior_mean (pipeline gcsv ccsv)))
  ∧ (∀ C m : Q,
       percentile (25 # 100)
         (ratings_count ∘ the_book <$> pipeline gcsv ccsv) C →
       arithmetic_mean (average_rating ∘ the_book <$> pipeline gcsv ccsv) m →
       Forall (λ r, same_float (bayes_average r) (bayes_formula C m r))
         (pipeline gcsv ccsv))
  ∧ Forall
      (λ r, bayes_average r
            = bayes_formula (confidence (pipeline gcsv ccsv))
                (prior_mean (pipeline gcsv ccsv)) r)
      (pipeline gcsv ccsv).
Proof.
  assert (∀ r, r ∈ pipeline gcsv ccsv →
               bayes_average r
               = bayes_formula (confidence (pipeline gcsv ccsv))
                   (prior_mean (pipeline gcsv ccsv)) r) as Hrow.
  { intros r Hr. unfold pipeline in *.
    by rewrite (score_bayes_average _ r Hr). }
  split_and!.
  - apply counted_score.
  - intros Hne. split.
    + apply (percentile_level (1 # 4)); [reflexivity|].
      apply quantile_percentile; [by apply fmap_nonempty|discriminate..].
    + apply mean_arithmetic_mean. by apply fmap_nonempty.
  - intros C m HC Hm. apply Forall_forall. intros r Hr.
    rewrite (Hrow r Hr). unfold bayes_formula.
    apply (percentile_level _ (1 # 4)) in HC; [|reflexivity].
    apply percentile_unique in HC. apply arithmetic_mean_unique in Hm.
    unfold confidence, prior_mean.
    apply fdiv_same_float; [by rewrite HC, Hm|by rewrite HC].
  - apply Forall_forall, Hrow.
Qed.

(** On the sample [C] is 50, the second least of the five numbers of
    ratings, and [m] is 3.7. *)
Lemma bayes_average_formula_shelf :
  percentile (25 # 100) (ratings_count ∘ the_book <$> shelf) 50
  ∧ arithmetic_mean (average_rating ∘ the_book <$> shelf) (37 # 10)
  ∧ Forall (λ r, same_float (bayes_average r) (bayes_formula 50 (37 # 10) r))
      shelf.
Proof.
  assert (ratings_count ∘ the_book <$> shelf = [50; 200; 200; 0; 1000])
    as Hcounts by (vm_compute; reflexivity).
  assert (average_rating ∘ the_book <$> shelf
          = [9 # 2; 4; 4; 7 # 2; 5 # 2]%Q)
    as Hratings by (vm_compute; reflexivity).
  assert (percentile (25 # 100) (ratings_count ∘ the_book <$> shelf) 50)
    as HC.
  { rewrite Hcounts.
    exists (merge_sort Z.le [50; 200; 200; 0; 1000]), 1%nat, 50, 200.
    split_and!; [apply merge_sort_Permutation|apply Sorted_merge_sort, _
                |discriminate|reflexivity|reflexivity|reflexivity
                |reflexivity]. }
  assert (arithmetic_mean (average_rating ∘ the_book <$> shelf) (37 # 10))
    as Hm.
  { rewrite Hratings. split; [discriminate|]. eexists. split.
    - repeat constructor.
    - reflexivity. }
  split_and!; [exact HC|exact Hm|].
  exact (proj1 (proj2 (proj2 (bayes_average_formula shelf_goodreads
                                shelf_categories))) 50%Q (37 # 10) HC Hm).
Defined.

Lemma fdiv_finite (n d : Q) : ¬ (d == 0)%Q → fdiv n d = Fin (n / d).
Proof.
  intros Hd. unfold fdiv.
  destruct (Qeq_bool d 0) eqn:E; [|done].
  by apply Qeq_bool_iff in E.
Qed.

(** C8. With [C > 0], a row without ratings gets exactly [m] as its
    [bayes_average]. *)
Theorem bayes_average_no_ratings (gcsv : list GoodreadsCsv)
    (ccsv : list CategoriesCsv) (r : Scored) :
  r ∈ pipeline gcsv ccsv →
  ratings_count (the_book r) = 0 →
  (0 < confidence (pipeline gcsv ccsv))%Q →
  ∃ q : Q,
    bayes_average r = Fin q ∧ (q == prior_mean (pipeline gcsv ccsv))%Q.
Proof.
  intros Hr Hcount HC. unfold pipeline in *.
  rewrite (score_bayes_average _ r Hr). unfold bayes. rewrite Hcount.
  set (C := confidence _) in *. set (m := prior_mean _).
  rewrite fdiv_finite.
  - eexists. split; [done|]. field. intros HC0. rewrite HC0 in HC.
    by apply Qlt_irrefl in HC.
  - intros HC0. assert (C == 0)%Q as HC1 by (rewrite <- HC0; ring).
    rewrite HC1 in HC. by apply Qlt_irrefl in HC.
Qed.

(** The third row of the sample has no ratings. *)
Lemma bayes_average_no_ratings_shelf :
  ∃ r : Scored,
    shelf !! 3%nat = Some r
    ∧ ratings_count (the_book r) = 0
    ∧ ∃ q : Q, bayes_average r = Fin q ∧ (q == prior_mean shelf)%Q.
Proof.
  eexists. split; [vm_compute; reflexivity|]. split; [reflexivity|].
  apply (bayes_average_no_ratings shelf_goodreads shelf_categories).
  - apply list_elem_of_lookup_2 with 3%nat. vm_compute. reflexivity.
  - reflexivity.
  - vm_compute. reflexivity.
Defined.

(** ** C9: the rounded rating *)

Lemma round_half_even_nearest (x : Q) :
  nearest_half_even x (round_half_even x).
Proof.
  unfold nearest_half_even, round_half_even.
  destruct (Qfloor_bounds x) as [Hlo Hhi].
  set (f := Qfloor x) in *.
  destruct (x - inject_Z f ?= 1 # 2)%Q eqn:Hc.
  - apply Qeq_alt in Hc.
    destruct (Z.even f) eqn:Hf.
    + split; [|done]. apply Qabs_Qle_condition. split; lra.
    + split.
      * apply Qabs_Qle_condition. rewrite inject_Z_plus.
        change (inject_Z 1) with 1%Q. split; lra.
      * intros _. rewrite Z.even_add, Hf. done.
  - apply Qlt_alt in Hc. split.
    + apply Qabs_Qle_condition. split; lra.
    + intros Hhalf. rewrite Qabs_pos in Hhalf by lra. lra.
  - apply Qgt_alt in Hc. rewrite inject_Z_plus.
    change (inject_Z 1) with 1%Q. split.
    + apply Qabs_Qle_condition. split; lra.
    + intros Hhalf. rewrite Qabs_neg in Hhalf by lra. lra.
Qed.

Lemma round_half_even_scale (x : Q) :
  (0 <= x)%Q → (x <= 5)%Q → 0 ≤ round_half_even x ≤ 5.
Proof.
  intros H0 H5. unfold round_half_even.
  destruct (Qfloor_bounds x) as [Hlo Hhi].
  assert (0 ≤ Qfloor x ≤ 5) as Hf.
  { split.
    - change 0 with (Qfloor (inject_Z 0)). by apply Qfloor_resp_le.
    - change 5 with (Qfloor (inject_Z 5)). by apply Qfloor_resp_le. }
  set (f := Qfloor x) in *.
  assert ((1 # 2 <= x - inject_Z f)%Q → f < 5) as Hup.
  { intros Hhalf. rewrite Zlt_Qlt. change (inject_Z 5) with 5%Q. lra. }
  destruct (x - inject_Z f ?= 1 # 2)%Q eqn:Hc.
  - apply Qeq_alt in Hc. destruct (Z.even f); [lia|].
    assert (f < 5) by (apply Hup; lra). lia.
  - lia.
  - apply Qgt_alt in Hc. assert (f < 5) by (apply Hup; lra). lia.
Qed.

(** C9, as the code has it. On every row [rounded_rating] is the integer
    nearest to [average_rating], the even one on a tie; nothing in the
    script bounds it, and it is one of 0, 1, 2, 3, 4, 5 when
    [average_rating] is between 0 and 5. *)
Theorem rounded_rating_nearest (gcsv : list GoodreadsCsv)
    (ccsv : list CategoriesCsv) :
  Forall
    (λ r,
       nearest_half_even (average_rating (the_book r)) (rounded_rating r)
       ∧ ((0 <= average_rating (the_book r))%Q →
          (average_rating (the_book r) <= 5)%Q →
          rounded_rating r ∈ [0; 1; 2; 3; 4; 5]))
    (pipeline gcsv ccsv).
Proof.
  apply Forall_forall. intros r Hr. unfold pipeline, score in Hr.
  apply list_elem_of_fmap in Hr as (c & -> & _). simpl. split.
  - apply round_half_even_nearest.
  - intros H0 H5.
    pose proof (round_half_even_scale _ H0 H5) as Hs.
    set (z := round_half_even _) in *.
    rewrite !elem_of_cons. lia.
Qed.

(** C9 as stated fails on a file with a rating above the scale: the row
    keeps it and shows 7 stars. *)
Lemma rounded_rating_off_scale :
  ¬ Forall (λ r, rounded_rating r ∈ [0; 1; 2; 3; 4; 5])
      (pipeline off_scale_goodreads shelf_categories).
Proof.
  intros Hclaim.
  assert (∃ r, pipeline off_scale_goodreads shelf_categories !! 0%nat = Some r
               ∧ rounded_rating r = 7) as (r & Hr & H7).
  { eexists. split; [vm_compute; reflexivity|reflexivity]. }
  pose proof (Forall_lookup_1 _ _ _ _ Hclaim Hr) as Hin. simpl in Hin.
  rewrite H7, !elem_of_cons, elem_of_nil in Hin. lia.
Qed.

(** ** C6: cutting the answer *)

Lemma length_head {A : Type} (n : Z) (l : list A) :
  0 ≤ n → Z.of_nat (length (head n l)) ≤ n.
Proof.
  intros Hn. unfold head. rewrite bool_decide_eq_true_2 by done.
  rewrite length_take. lia.
Qed.

Section cutting.
Context `{SortValues} `{PyRe}.

Lemma run_query_narrowed_general (all_books res : list Scored) (q : Query) :
  run_query all_books q = Some res →
  ∃ narrowed_set,
    res = narrowed_general narrowed_set (value q) (page_bucket q) (limit q).
Proof.
  unfold run_query. destruct (mode q).
  - destruct (narrowed_author all_books (value q)) as [cands|]; simpl; [|done].
    intros [= <-]. by exists cands.
  - intros [= <-]. by eexists.
Qed.

Lemma length_narrowed_general (narrowed_set : list Scored)
    (user_input : string) (pages : Pages) (number_rec : Z) :
  0 ≤ number_rec →
  Z.of_nat (length (narrowed_general narrowed_set user_input pages number_rec))
  ≤ number_rec.
Proof.
  intros Hn. unfold narrowed_general. case_decide; simpl; [lia|].
  by apply length_head.
Qed.
End cutting.

(** C6, as the code has it. An answer is never longer than the number
    asked for, and is empty when that number is 0. Asking for 0 books gives
    the empty answer by genre, and by an author that [re] compiles; by
    genre there is always an answer. By an author that [re] does not
    compile, such as one that starts with a repetition, the script stops
    on the exception whatever the number asked for, 0 included. *)
Theorem result_count `{SortValues} `{PyRe} (all_books : list Scored)
    (q : Query) :
  0 ≤ limit q →
  (∀ res, run_query all_books q = Some res →
          Z.of_nat (length res) ≤ limit q
          ∧ (limit q = 0 → res = []))
  ∧ (limit q = 0 → mode q = Genre → run_query all_books q = Some [])
  ∧ (limit q = 0 → is_Some (re_search_icase (value q)) →
     run_query all_books q = Some [])
  ∧ (mode q = Genre → is_Some (run_query all_books q))
  ∧ (mode q = Author → re_search_icase (value q) = None →
     run_query all_books q = None)
  ∧ (mode q = Author →
     (∃ c rest, c ∈ re_repeat ∧ value q = String c rest) →
     run_query all_books q = None).
Proof.
  intros Hn.
  assert (∀ res, run_query all_books q = Some res →
                 Z.of_nat (length res) ≤ limit q
                 ∧ (limit q = 0 → res = [])) as Hres.
  { intros res (narrowed_set & ->)%run_query_narrowed_general.
    pose proof (length_narrowed_general narrowed_set (value q)
                  (page_bucket q) (limit q) Hn) as Hlen.
    split; [done|]. intros Hzero. apply length_zero_iff_nil. lia. }
  assert (mode q = Author → re_search_icase (value q) = None →
          run_query all_books q = None) as Hraise.
  { intros Hm Hs. unfold run_query, narrowed_author. by rewrite Hm, Hs. }
  split_and!; [done|..|done|].
  - intros Hzero Hm. unfold run_query. rewrite Hm. f_equal.
    by eapply Hres; [unfold run_query; rewrite Hm|].
  - intros Hzero [search Hs].
    assert (is_Some (run_query all_books q)) as [res Hq].
    { unfold run_query, narrowed_author. rewrite Hs. simpl.
      destruct (mode q); eauto. }
    rewrite Hq. f_equal. by eapply Hres.
  - intros Hm. unfold run_query. rewrite Hm. eauto.
  - intros Hm (c & rest & Hc & Hv). apply Hraise; [done|].
    rewrite Hv. by apply re_search_icase_repeat.
Qed.

Lemma result_count_shelf :
  ∃ res, @run_query insertion_sort_values plain_re shelf
           {| mode := Genre; value := "Humor"; page_bucket := Below300;
              limit := 2 |} = Some res
         ∧ Z.of_nat (length res) ≤ 2.
Proof.
  eexists. split; [vm_compute; reflexivity|].
  refine (proj1 (proj1 (@result_count insertion_sort_values plain_re shelf
                          {| mode := Genre; value := "Humor";
                             page_bucket := Below300; limit := 2 |} _) _ _)).
  - simpl. lia.
  - vm_compute. reflexivity.
Defined.

(** C6 as stated fails on its last words: with a plus sign typed as
    author, which [re] does not compile, the script stops on the exception
    of line 256 although 0 books are asked for. *)
Lemma count_zero_still_raises :
  ¬ ∀ (S : SortValues) (R : PyRe) (q : Query),
      limit q = 0 → @run_query S R shelf q = Some [].
Proof.
  intros Hclaim.
  assert (∀ (S : SortValues) (R : PyRe),
            @run_query S R shelf
              {| mode := Author; value := "+"; page_bucket := Below300;
                 limit := 0 |} = None) as Hraise.
  { intros S R. unfold run_query, narrowed_author. cbn [mode value].
    rewrite (re_search_icase_repeat "+"%char EmptyString); [done|].
    unfold re_repeat. rewrite !elem_of_cons. auto. }
  specialize (Hclaim insertion_sort_values plain_re
                {| mode := Author; value := "+"; page_bucket := Below300;
                   limit := 0 |} eq_refl).
  by rewrite Hraise in Hclaim.
Qed.


(** ** C3: ranking *)

Lemma key_ge_refl (a : float64) : key_ge a a.
Proof.
  destruct a as [x| | |]; simpl; try done.
  apply Is_true_true, Qle_bool_iff, Qle_refl.
Qed.







Section ranking.
Context `{SortValues} `{PyRe}.


End ranking.




(** In the sample where the third book has the better rating, no two of
    the short books have the same [bayes_average]. *)
Example no_ties_rated :
  no_ties (filter (λ r, in_pages Below300 r)
             (pipeline rated_goodreads shelf_categories)).
Proof.
  assert (∃ a b c,
             filter (λ r, in_pages Below300 r)
               (pipeline rated_goodreads shelf_categories) = [a; b; c]
             ∧ key_ge (bayes_average b) (bayes_average a) = false
             ∧ key_ge (bayes_average a) (bayes_average c) = false
             ∧ key_ge (bayes_average b) (bayes_average c) = false)
    as (a & b & c & -> & Hba & Hac & Hbc).
  { eexists _, _, _. split_and!; vm_compute; reflexivity. }
  intros x y. rewrite !elem_of_cons, !elem_of_nil.
  intros [->|[->|[->|[]]]] [->|[->|[->|[]]]]; try done;
    rewrite ?Hba, ?Hac, ?Hbc; done.
Qed.


(** ** C5, C10: narrowing by author *)

Lemma append_nil_l (s : string) : EmptyString +:+ s = s.
Proof. reflexivity. Qed.

Lemma append_cons (c : ascii) (s t : string) :
  String c s +:+ t = String c (s +:+ t).
Proof. reflexivity. Qed.

Lemma parse_plain_literal (pat : string) :
  literal pat → parse_plain pat = Some (PChar <$> chars pat).
Proof.
  unfold literal. induction pat as [|c pat IH]; simpl; [done|].
  intros [Hc Hpat]%Forall_cons. rewrite (IH Hpat). simpl.
  case_decide as Hdot.
  - subst c. exfalso. apply Hc. unfold re_special. left.
  - by case_decide.
Qed.

Lemma match_here_chars (needle s : string) :
  match_here (PChar <$> chars needle) s ↔
  ∃ mid post : string, s = mid +:+ post ∧ lower_str mid = lower_str needle.
Proof.
  revert s. induction needle as [|c needle IH]; intros s; simpl.
  - split; [|done]. intros _. by exists EmptyString, s.
  - destruct s as [|d s].
    + split; [done|]. intros (mid & post & Hs & Hmid).
      destruct mid; simpl in Hmid; [discriminate|].
      rewrite append_cons in Hs. discriminate.
    + rewrite andb_True, bool_decide_spec, IH. split.
      * intros (Hcd & mid & post & -> & Hmid).
        exists (String d mid), post. rewrite append_cons. simpl.
        by rewrite Hcd, Hmid.
      * intros (mid & post & Hs & Hmid).
        destruct mid as [|e mid]; simpl in Hmid; [discriminate|].
        rewrite append_cons in Hs.
        injection Hs as -> ->. injection Hmid as Hcd Hmid.
        split; [done|]. by exists mid, post.
Qed.

Lemma re_search_somewhere (p : list PatItem) (s : string) :
  re_search p s ↔ ∃ pre rest : string, s = pre +:+ rest ∧ match_here p rest.
Proof.
  induction s as [|c s IH]; simpl; rewrite orb_True.
  - split.
    + intros [Hm|[]]. by exists EmptyString, EmptyString.
    + intros (pre & rest & Hs & Hm). left.
      destruct pre; [|by rewrite append_cons in Hs].
      rewrite append_nil_l in Hs. by subst rest.
  - rewrite IH. split.
    + intros [Hm|(pre & rest & -> & Hm)].
      * by exists EmptyString, (String c s).
      * by exists (String c pre), rest.
    + intros (pre & rest & Hs & Hm). destruct pre as [|d pre].
      * left. rewrite append_nil_l in Hs. by subst rest.
      * right. rewrite append_cons in Hs. injection Hs as -> ->.
        by exists pre, rest.
Qed.

(** On a pattern without special characters, the search of [re] is
    case-insensitive substring containment. *)
Lemma re_search_ci_substring (needle hay : string) :
  re_search (PChar <$> chars needle) hay ↔ ci_substring needle hay.
Proof.
  rewrite re_search_somewhere. unfold ci_substring. split.
  - intros (pre & rest & -> & (mid & post & -> & Hmid)%match_here_chars).
    by exists pre, mid, post.
  - intros (pre & mid & post & -> & Hmid). exists pre, (mid +:+ post).
    split; [done|]. apply match_here_chars. by exists mid, post.
Qed.

Lemma elem_of_narrowed_author `{PyRe} (all_books : list Scored)
    (author : string) (search : string → bool) :
  re_search_icase author = Some search →
  narrowed_author all_books author
  = Some (filter (λ r, str_contains search (authors (the_book r))) all_books)
  ∧ ∀ r, r ∈ filter (λ r, str_contains search (authors (the_book r)))
               all_books
         ↔ by_author search all_books r.
Proof.
  intros Hs. unfold narrowed_author. rewrite Hs. simpl. split; [done|].
  intros r. rewrite list_elem_of_filter. unfold by_author, str_contains.
  destruct (authors (the_book r)) as [a|]; split.
  - intros [Hm Hr]. split; [done|]. by exists a.
  - by intros (Hr & a' & [= <-] & Hm).
  - by intros [[] _].
  - by intros (_ & a & ? & _).
Qed.

(** On an ASCII pattern of ordinary characters and dots, the candidates
    are the rows that [re_search] selects, as far as the rows with ASCII
    authors go. *)
Lemma narrowed_author_plain `{PyRe} (all_books : list Scored)
    (author : string) (p : list PatItem) :
  parse_plain author = Some p → is_ascii author →
  ∃ search : string → bool,
    narrowed_author all_books author
    = Some (filter (λ r, str_contains search (authors (the_book r)))
              all_books)
    ∧ ∀ r, ascii_authors r →
           str_contains search (authors (the_book r))
           = str_contains (re_search p) (authors (the_book r)).
Proof.
  intros Hp Hascii.
  destruct (re_search_icase_plain author p Hp Hascii)
    as (search & Hs & Hagree).
  exists search. unfold narrowed_author. rewrite Hs. split; [done|].
  intros r Hr. unfold ascii_authors, str_contains in *.
  destruct (authors (the_book r)) as [a|]; [|done]. by apply Hagree.
Qed.

(** C5, as the code has it. The author typed is a regular expression.
    For an ASCII input made of ordinary characters and dots, a row with
    ASCII authors is a candidate exactly when the pattern matches somewhere
    in its authors, ignoring case, a dot standing for any character but
    the newline; when the input has no special character at all, that is
    exactly when its authors contain the input as a case-insensitive
    substring. The candidates are rows of the table, in its order. With
    nothing typed the answer is empty, whatever the page bucket and the
    number asked for. *)
Theorem author_candidates `{SortValues} `{PyRe} (all_books : list Scored)
    (author : string) :
  (∀ p, parse_plain author = Some p → is_ascii author →
        ∃ cands, narrowed_author all_books author = Some cands
                 ∧ ∀ r a, authors (the_book r) = Some a → is_ascii a →
                          (r ∈ cands ↔ r ∈ all_books ∧ re_search p a))
  ∧ (literal author → is_ascii author →
     ∃ cands, narrowed_author all_books author = Some cands
              ∧ ∀ r a, authors (the_book r) = Some a → is_ascii a →
                       (r ∈ cands ↔ r ∈ all_books ∧ ci_substring author a))
  ∧ (∀ cands, narrowed_author all_books author = Some cands →
              cands `sublist_of` all_books)
  ∧ (∀ pages n,
       run_query all_books
         {| mode := Author; value := EmptyString; page_bucket := pages;
            limit := n |} = Some []).
Proof.
  assert (∀ p, parse_plain author = Some p → is_ascii author →
               ∃ cands, narrowed_author all_books author = Some cands
                        ∧ ∀ r a, authors (the_book r) = Some a → is_ascii a →
                                 (r ∈ cands ↔ r ∈ all_books ∧ re_search p a))
    as Hplain.
  { intros p Hp Hascii.
    destruct (narrowed_author_plain all_books author p Hp Hascii)
      as (search & Hc & Hagree).
    eexists. split; [exact Hc|]. intros r a Ha Hasc.
    rewrite list_elem_of_filter, Hagree.
    - rewrite Ha. simpl. tauto.
    - unfold ascii_authors. by rewrite Ha. }
  split_and!.
  - exact Hplain.
  - intros Hlit Hascii.
    destruct (Hplain _ (parse_plain_literal _ Hlit) Hascii) as (cands & Hc & Hin).
    exists cands. split; [done|]. intros r a Ha Hasc.
    by rewrite (Hin r a Ha Hasc), re_search_ci_substring.
  - intros cands Hc. unfold narrowed_author in Hc.
    destruct (re_search_icase author) as [search|]; [|done].
    simpl in Hc. injection Hc as <-. apply sublist_filter.
  - intros pages n. destruct re_search_icase_empty as (search & Hs & _).
    unfold run_query, narrowed_author. cbn [mode value]. by rewrite Hs.
Qed.

Lemma author_candidates_shelf :
  ∃ cands : list Scored,
    @narrowed_author plain_re shelf "bob" = Some cands
    ∧ title ∘ the_book <$> cands = [Some "Airy"].
Proof.
  destruct (proj1 (proj2 (@author_candidates insertion_sort_values plain_re
                            shelf "bob")))
    as (cands & Hc & _).
  - apply (bool_decide_unpack (literal _)). vm_compute. exact I.
  - apply (bool_decide_unpack (is_ascii _)). vm_compute. exact I.
  - exists cands. split; [exact Hc|].
    vm_compute in Hc. injection Hc as <-. reflexivity.
Defined.

(** C5 as stated fails on an author with a special character: a dot
    alone selects the book by Di Fi, whose authors have no dot. *)
Lemma dot_is_not_a_substring :
  ¬ ∀ (R : PyRe) (all_books cands : list Scored) (author : string),
      @narrowed_author R all_books author = Some cands →
      ∀ r, r ∈ cands ↔ by_author (ci_substring author) all_books r.
Proof.
  intros Hclaim.
  assert (∃ cands r,
             @narrowed_author plain_re shelf "." = Some cands
             ∧ cands !! 0%nat = Some r
             ∧ authors (the_book r) = Some "Di Fi")
    as (cands & r & Hc & Hr & Ha).
  { eexists _, _. split_and!; vm_compute; reflexivity. }
  apply list_elem_of_lookup_2 in Hr.
  apply (Hclaim plain_re shelf cands "." Hc r) in Hr
    as (_ & a & Ha' & Hsub).
  rewrite Ha in Ha'. injection Ha' as <-.
  apply re_search_ci_substring in Hsub. by vm_compute in Hsub.
Qed.

(** C10. Whatever is typed, a row without authors is not a candidate and
    is in no answer of author mode, and the rows without authors do not
    decide whether the narrowing fails: it fails exactly when the pattern
    does not compile. *)
Theorem missing_authors_never_match `{SortValues} `{PyRe}
    (all_books : list Scored) (author : string) :
  (∀ cands, narrowed_author all_books author = Some cands →
            Forall (λ r, is_Some (authors (the_book r))) cands)
  ∧ (∀ pages n res,
       run_query all_books
         {| mode := Author; value := author; page_bucket := pages;
            limit := n |} = Some res →
       Forall (λ r, is_Some (authors (the_book r))) res)
  ∧ (is_Some (narrowed_author all_books author)
     ↔ is_Some (re_search_icase author)).
Proof.
  assert (∀ cands, narrowed_author all_books author = Some cands →
                   Forall (λ r, is_Some (authors (the_book r))) cands)
    as Hcands.
  { intros cands Hc. unfold narrowed_author in Hc.
    destruct (re_search_icase author) as [search|]; simpl in Hc; [|done].
    injection Hc as <-. apply Forall_forall.
    intros r [Hr _]%list_elem_of_filter. unfold str_contains in Hr.
    by destruct (authors (the_book r)). }
  split_and!; [done|..].
  - intros pages n res Hq. unfold run_query in Hq. simpl in Hq.
    destruct (narrowed_author all_books author) as [cands|] eqn:Hc;
      simpl in Hq; [|done].
    injection Hq as <-. apply Forall_forall. intros r Hr.
    apply narrowed_general_subseteq in Hr.
    by eapply Forall_forall in Hr; [|by apply Hcands].
  - unfold narrowed_author.
    destruct (re_search_icase author); simpl; split; intros [? ?]; eauto;
      done.
Qed.


(** * Further properties of the pipeline *)

(** ** The merge when the second file lists every ISBN once *)

Lemma filter_unique_key (c : list Categories) (k : option string) :
  NoDup (ca_isbn10 <$> c) →
  ((k ∉ (ca_isbn10 <$> c)) ∧ filter (λ y, ca_isbn10 y = k) c = [])
  ∨ (k ∈ (ca_isbn10 <$> c) ∧ ∃ y, filter (λ y, ca_isbn10 y = k) c = [y]).
Proof.
  induction c as [|y c IH]; simpl.
  - intros _. left. split; [apply not_elem_of_nil|done].
  - rewrite NoDup_cons. intros [Hy Hc]. rewrite filter_cons.
    destruct (IH Hc) as [[Hk Hf]|[Hk [y' Hf]]]; case_decide as Hyk.
    + right. split; [subst k; left|]. exists y. by rewrite Hf.
    + left. split; [|done]. rewrite not_elem_of_cons. by split.
    + subst k. done.
    + right. split; [by right|]. by exists y'.
Qed.

Lemma goodreads_part_join_row (x : Goodreads) (y : Categories) :
  goodreads_part (join_row x y) = x.
Proof. by destruct x. Qed.

(** When no ISBN is on two rows of [categories], the merged table is
    [goodreads] without the rows whose ISBN [categories] lacks: the rows
    that stay keep their order and every value of the first file, and none
    is repeated. *)
Theorem merge_keeps_goodreads (g : list Goodreads) (c : list Categories) :
  NoDup (ca_isbn10 <$> c) →
  goodreads_part <$> merge g c
  = filter (λ x, gr_isbn10 x ∈ (ca_isbn10 <$> c)) g.
Proof.
  intros Hc. induction g as [|x g IH]; [done|].
  rewrite merge_cons, fmap_app, IH, filter_cons.
  destruct (filter_unique_key c (gr_isbn10 x) Hc) as [[Hk Hf]|[Hk [y Hf]]];
    rewrite Hf; simpl; case_decide; try done.
  by rewrite goodreads_part_join_row.
Qed.

Lemma merge_keeps_goodreads_shelf :
  NoDup (ca_isbn10 <$> (clean_categories <$> shelf_categories))
  ∧ gr_title <$> (goodreads_part <$> merged shelf_goodreads shelf_categories)
    = [Some "Eddy"; Some "Airy"; Some "Bold"; Some "Calm"; Some "Dusk"].
Proof.
  assert (NoDup (ca_isbn10 <$> (clean_categories <$> shelf_categories)))
    as Hc by (apply (bool_decide_unpack (NoDup _)); vm_compute; exact I).
  split; [exact Hc|]. unfold merged.
  rewrite (merge_keeps_goodreads _ _ Hc). vm_compute. reflexivity.
Defined.

(** ** The genre mapping leaves none of its keys behind *)

(** After the replacement no row carries a label that the mapping
    replaces, and the table has the rows it had, in their order, with every
    other column untouched. *)
Theorem normalize_genre_complete (all_books : list Book) :
  Forall (λ b, similar_genre !! categories b = None)
    (normalize_genre <$> all_books)
  ∧ goodreads_part <$> (normalize_genre <$> all_books)
    = goodreads_part <$> all_books
  ∧ thumbnail <$> (normalize_genre <$> all_books) = thumbnail <$> all_books
  ∧ description <$> (normalize_genre <$> all_books)
    = description <$> all_books.
Proof.
  split_and!.
  - apply Forall_forall. intros b (b0 & -> & _)%list_elem_of_fmap. simpl.
    unfold replace. destruct (similar_genre !! categories b0) as [v|] eqn:Hv.
    + simpl. by apply canonical_not_key, similar_genre_canonical with
        (categories b0).
    + done.
  - by rewrite <- list_fmap_compose.
  - by rewrite <- list_fmap_compose.
  - by rewrite <- list_fmap_compose.
Qed.

(** ** The dictionary of the counting loop *)

(** When the loop ends, [frequency] has exactly the labels of the column as
    keys, and under each of them the number of cells that hold it. *)
Theorem count_genres_counts (cate_list : list string) (k : string) :
  (k ∈ cate_list →
   count_genres cate_list !! k = Some (occurrences k cate_list)
   ∧ (1 ≤ occurrences k cate_list)%nat)
  ∧ (k ∉ cate_list → count_genres cate_list !! k = None)
  ∧ dom (count_genres cate_list) = list_to_set cate_list.
Proof.
  assert (occurrences k cate_list = 0%nat ↔ k ∉ cate_list) as Hzero.
  { unfold occurrences. rewrite length_zero_iff_nil. split.
    - intros Hnil Hk.
      assert (k ∈ filter (λ s, s = k) cate_list) as Hin
        by by apply list_elem_of_filter.
      rewrite Hnil in Hin. by apply elem_of_nil in Hin.
    - intros Hk. apply elem_of_nil_inv. intros s [-> Hs]%list_elem_of_filter.
      done. }
  split_and!.
  - intros Hk. rewrite count_genres_lookup.
    assert (occurrences k cate_list ≠ 0%nat) as Hn
      by (intros Hn; by apply Hzero in Hn).
    destruct (occurrences k cate_list); [done|]. split; [done|lia].
  - intros Hk. rewrite count_genres_lookup. by rewrite (proj2 Hzero Hk).
  - apply set_eq. intros s. rewrite elem_of_dom, elem_of_list_to_set.
    rewrite count_genres_lookup. unfold occurrences.
    destruct (length (filter (λ t, t = s) cate_list)) as [|n] eqn:Hn.
    + apply length_zero_iff_nil in Hn. split; [by intros [? ?]|].
      intros Hs. assert (s ∈ filter (λ t, t = s) cate_list) as Hin
        by by apply list_elem_of_filter.
      rewrite Hn in Hin. by apply elem_of_nil in Hin.
    + split; [|by eauto]. intros _.
      destruct (filter (λ t, t = s) cate_list) as [|t l] eqn:Hf; [done|].
      assert (t ∈ filter (λ t, t = s) cate_list) as Hin by (rewrite Hf; left).
      by apply list_elem_of_filter in Hin as [-> Hin].
Qed.

(** ** A genre stays whole or goes whole *)

Lemma filter_filter_absorb {A : Type} (P Q : A → Prop)
    `{!∀ x, Decision (P x), !∀ x, Decision (Q x)} (l : list A) :
  (∀ x, x ∈ l → P x → Q x) → filter P (filter Q l) = filter P l.
Proof.
  induction l as [|x l IH]; intros HPQ; [done|].
  assert (filter P (filter Q l) = filter P l) as IH'.
  { apply IH. intros y Hy. apply HPQ. by right. }
  rewrite !filter_cons. destruct (decide (Q x)) as [HQ|HQ].
  - rewrite filter_cons. by rewrite IH'.
  - rewrite IH'. case_decide as HP; [|done].
    exfalso. apply HQ, HPQ; [left|done].
Qed.

Lemma length_filter_fmap {A B : Type} (f : A → B) (P : B → Prop)
    `{!∀ y, Decision (P y)} (l : list A) :
  length (filter P (f <$> l)) = length (filter (λ x, P (f x)) l).
Proof.
  induction l as [|x l IH]; [done|].
  rewrite fmap_cons, !filter_cons. case_decide; simpl; by rewrite IH.
Qed.

Lemma frequency_filter_genre_whole (table : list Book) (c : Counted) :
  c ∈ frequency_filter table →
  filter (λ c', categories (book c') = categories (book c))
    (frequency_filter table)
  = filter (λ c', categories (book c') = categories (book c))
      (add_genre_frequency table).
Proof.
  intros Hc. pose proof Hc as (Hb & Hn & Hf & Hg)%elem_of_frequency_filter.
  unfold frequency_filter.
  rewrite filter_filter_absorb.
  - apply filter_filter_absorb. intros c' Hc' Hk.
    unfold add_genre_frequency in Hc'.
    apply list_elem_of_fmap in Hc' as (b & -> & _). simpl in Hk.
    unfold frequent in *. simpl. by rewrite Hk, <- Hn.
  - intros c' _ Hk. unfold has_genre in *. by rewrite Hk.
Qed.

Lemma frequency_filter_count (table : list Book) (c : Counted) :
  c ∈ frequency_filter table →
  genre_frequency c
  = Some (length (filter (λ c', categories (book c') = categories (book c))
                    (frequency_filter table))).
Proof.
  intros Hc. pose proof Hc as (Hb & Hn & _ & _)%elem_of_frequency_filter.
  rewrite (frequency_filter_genre_whole _ _ Hc), Hn, count_genres_lookup.
  unfold occurrences, add_genre_frequency.
  rewrite !length_filter_fmap. simpl.
  destruct (length _) as [|n] eqn:Hlen; [|done].
  apply length_zero_iff_nil in Hlen.
  assert (book c ∈ filter (λ b, categories b = categories (book c)) table)
    as Hin by by apply list_elem_of_filter.
  rewrite Hlen in Hin. by apply elem_of_nil in Hin.
Qed.

(** The rows of a genre are kept all together or dropped all together:
    on every row of the finished table [genre_frequency], counted before
    the filter, is still the number of rows of the finished table with that
    row's category. *)
Theorem genre_frequency_after_filter (gcsv : list GoodreadsCsv)
    (ccsv : list CategoriesCsv) :
  Forall
    (λ r, genre_frequency (counted r)
          = Some (occurrences (categories (the_book r))
                    (genres_of (pipeline gcsv ccsv))))
    (pipeline gcsv ccsv).
Proof.
  apply Forall_forall. intros r Hr. unfold pipeline in *.
  apply elem_of_score in Hr.
  rewrite (frequency_filter_count _ _ Hr). f_equal.
  unfold genres_of, the_book, occurrences.
  change (categories ∘ (λ r, book (counted r)))
    with ((categories ∘ book) ∘ counted).
  rewrite list_fmap_compose, counted_score.
  by rewrite length_filter_fmap.
Qed.

(** ** The filter only removes rows *)

Lemma book_add_genre_frequency (all_books : list Book) :
  book <$> add_genre_frequency all_books = all_books.
Proof.
  unfold add_genre_frequency. rewrite <- list_fmap_compose.
  induction all_books as [|b l IH]; [done|].
  rewrite fmap_cons. simpl. f_equal. exact IH.
Qed.

Lemma the_book_normalized (gcsv : list GoodreadsCsv)
    (ccsv : list CategoriesCsv) (r : Scored) :
  r ∈ pipeline gcsv ccsv → the_book r ∈ normalized gcsv ccsv.
Proof.
  unfold pipeline. fold (normalized gcsv ccsv).
  intros Hr%elem_of_score. by apply elem_of_frequency_filter in Hr as [? _].
Qed.

(** The books of the finished table are books of the normalized table,
    unchanged and in the order they had there. *)
Theorem pipeline_sublist (gcsv : list GoodreadsCsv)
    (ccsv : list CategoriesCsv) :
  the_book <$> pipeline gcsv ccsv `sublist_of` normalized gcsv ccsv.
Proof.
  unfold pipeline. fold (normalized gcsv ccsv). unfold the_book.
  change (λ r, book (counted r)) with (book ∘ counted).
  rewrite list_fmap_compose, counted_score. unfold frequency_filter.
  rewrite <- (book_add_genre_frequency (normalized gcsv ccsv)) at 2.
  apply fmap_sublist. etrans; apply sublist_filter.
Qed.

(** * Further properties of the score *)

(** ** The quantile and the mean *)

(** The quantile is a point between two cells of the column. *)
Lemma quantile_between_cells (q : Q) (xs : list Z) :
  xs ≠ [] → (0 <= q)%Q → (q <= 1)%Q →
  ∃ (a b : Z) (gamma : Q),
    a ∈ xs ∧ b ∈ xs ∧ (0 <= gamma)%Q ∧ (gamma <= 1)%Q
    ∧ quantile q xs
      = (inject_Z a + (inject_Z b - inject_Z a) * gamma)%Q.
Proof.
  intros Hne Hq0 Hq1. unfold quantile.
  set (s := merge_sort Z.le xs).
  assert (s ≡ₚ xs) as Hperm by apply merge_sort_Permutation.
  assert (0 < length s)%nat as Hlen.
  { rewrite Hperm. destruct xs; [done|simpl; lia]. }
  set (last := (length s - 1)%nat).
  set (pos := (inject_Z (Z.of_nat last) * q)%Q).
  assert (0 <= inject_Z (Z.of_nat last))%Q as Hlast0.
  { change 0%Q with (inject_Z 0). rewrite <- Zle_Qle. lia. }
  assert (0 <= pos)%Q as Hpos0 by (unfold pos; nra).
  assert (pos <= inject_Z (Z.of_nat last))%Q as Hpos1 by (unfold pos; nra).
  destruct (Qfloor_between pos _ Hpos0 Hpos1) as [Hf0 Hf1].
  destruct (Qfloor_bounds pos) as [Hfl Hfh].
  set (f := Qfloor pos) in *.
  destruct (lookup_lt_is_Some_2 s (Z.to_nat f)) as [a Ha]; [lia|].
  destruct (lookup_lt_is_Some_2 s (S (Z.to_nat f) `min` last)) as [b Hb];
    [lia|].
  rewrite (nth_lookup_Some _ _ _ _ Ha), (nth_lookup_Some _ _ _ _ Hb).
  exists a, b, (pos - inject_Z f)%Q. split_and!; [| |lra|lra|done].
  - rewrite <- Hperm. by eapply list_elem_of_lookup_2.
  - rewrite <- Hperm. by eapply list_elem_of_lookup_2.
Qed.

(** The quantile of a column that is not empty lies between the least and
    the greatest cell, whatever the level between 0 and 1; on a column of
    counts it is not negative. *)
Theorem quantile_within (q : Q) (xs : list Z) (lo hi : Z) :
  xs ≠ [] → (0 <= q)%Q → (q <= 1)%Q →
  Forall (λ x, lo ≤ x ≤ hi) xs →
  (inject_Z lo <= quantile q xs)%Q ∧ (quantile q xs <= inject_Z hi)%Q.
Proof.
  intros Hne Hq0 Hq1 Hxs.
  destruct (quantile_between_cells q xs Hne Hq0 Hq1)
    as (a & b & gamma & Ha & Hb & Hg0 & Hg1 & ->).
  apply (proj1 (Forall_forall _ _) Hxs) in Ha, Hb.
  assert (inject_Z lo <= inject_Z a <= inject_Z hi)%Q as [Ha0 Ha1]
    by (rewrite <- !Zle_Qle; lia).
  assert (inject_Z lo <= inject_Z b <= inject_Z hi)%Q as [Hb0 Hb1]
    by (rewrite <- !Zle_Qle; lia).
  split; nra.
Qed.

Lemma quantile_within_shelf :
  (0 <= quantile (1 # 4) [50; 200; 200; 0; 1000]%Z)%Q
  ∧ (quantile (1 # 4) [50; 200; 200; 0; 1000]%Z <= 1000)%Q.
Proof.
  apply (quantile_within (1 # 4) [50; 200; 200; 0; 1000] 0 1000).
  - discriminate.
  - discriminate.
  - discriminate.
  - repeat constructor; discriminate.
Defined.

(** ** The order of the lines of the files *)

Lemma merge_perm (g g' : list Goodreads) (c c' : list Categories) :
  g ≡ₚ g' → c ≡ₚ c' → merge g c ≡ₚ merge g' c'.
Proof.
  intros Hg Hc. unfold merge.
  transitivity
    (x ← g; join_row x <$> filter (λ y, ca_isbn10 y = gr_isbn10 x) c').
  - clear Hg. induction g as [|x g IH]; [done|]. simpl.
    apply Permutation_app; [by rewrite Hc|done].
  - by rewrite Hg.
Qed.

Lemma count_genres_perm (l l' : list string) :
  l ≡ₚ l' → count_genres l = count_genres l'.
Proof.
  intros Hl. apply map_eq. intros k. rewrite !count_genres_lookup.
  unfold occurrences. by rewrite Hl.
Qed.

Lemma frequency_filter_perm (table table' : list Book) :
  table ≡ₚ table' → frequency_filter table ≡ₚ frequency_filter table'.
Proof.
  intros Ht. unfold frequency_filter, add_genre_frequency.
  rewrite (count_genres_perm (categories <$> table) (categories <$> table'))
    by by rewrite Ht.
  by rewrite Ht.
Qed.

(** The order of the lines in the two files does not matter to what the
    frequency filter keeps nor to [C]: with the lines of either file in
    another order, the finished table has the same rows with the same
    [genre_frequency] (in some order), the same [rounded_rating] on each of
    them, and the same [C]. *)
Theorem confidence_any_order (gcsv gcsv' : list GoodreadsCsv)
    (ccsv ccsv' : list CategoriesCsv) :
  gcsv ≡ₚ gcsv' → ccsv ≡ₚ ccsv' →
  counted <$> pipeline gcsv ccsv ≡ₚ counted <$> pipeline gcsv' ccsv'
  ∧ (λ r, (counted r, rounded_rating r)) <$> pipeline gcsv ccsv
    ≡ₚ (λ r, (counted r, rounded_rating r)) <$> pipeline gcsv' ccsv'
  ∧ confidence (pipeline gcsv ccsv) = confidence (pipeline gcsv' ccsv').
Proof.
  intros Hg Hc.
  assert (frequency_filter (normalized gcsv ccsv)
          ≡ₚ frequency_filter (normalized gcsv' ccsv')) as Hkept.
  { apply frequency_filter_perm. unfold normalized, merged.
    apply fmap_Permutation, merge_perm; by apply fmap_Permutation. }
  unfold pipeline. fold (normalized gcsv ccsv) (normalized gcsv' ccsv').
  split_and!.
  - by rewrite !counted_score.
  - unfold score. rewrite <- !list_fmap_compose.
    by apply fmap_Permutation.
  - rewrite !confidence_score. unfold quantile.
    rewrite (merge_sort_Z_perm
               (ratings_count ∘ book <$> frequency_filter (normalized gcsv ccsv))
               (ratings_count ∘ book
                  <$> frequency_filter (normalized gcsv' ccsv')));
      [done|]. by apply fmap_Permutation.
Qed.

Lemma confidence_any_order_shelf :
  confidence (pipeline shelf_goodreads shelf_categories)
  = confidence (pipeline (reverse shelf_goodreads) (reverse shelf_categories)).
Proof.
  apply confidence_any_order; symmetry; apply reverse_Permutation.
Defined.

Lemma inject_Z_nonneg (z : Z) : 0 ≤ z → (0 <= inject_Z z)%Q.
Proof. intros Hz. change 0%Q with (inject_Z 0). by rewrite <- Zle_Qle. Qed.

Lemma inject_Z_zero (z : Z) : (inject_Z z == 0)%Q → z = 0.
Proof. intros Hz. by apply (proj1 (inject_Z_injective z 0)). Qed.

(** ** The Bayesian average on a table of counts *)

Lemma Qdiv_le_cross (x1 d1 x2 d2 : Q) :
  (0 < d1)%Q → (0 < d2)%Q → (x1 * d2 <= x2 * d1)%Q → (x1 / d1 <= x2 / d2)%Q.
Proof.
  intros H1 H2 Hx. apply Qle_shift_div_r; [done|].
  assert (x2 / d2 * d1 == x2 * d1 / d2)%Q as -> by (field; lra).
  by apply Qle_shift_div_l.
Qed.

Lemma bayes_finite (C m : Q) (b : Book) :
  (0 < inject_Z (ratings_count b) + C)%Q →
  bayes C m b
  = Fin ((average_rating b * inject_Z (ratings_count b) + C * m)
         / (inject_Z (ratings_count b) + C)).
Proof. intros Hd. unfold bayes. apply fdiv_finite. lra. Qed.

Lemma bayes_nan (C m : Q) (b : Book) :
  0 ≤ ratings_count b → (0 <= C)%Q →
  bayes C m b = NaN ↔ ratings_count b = 0 ∧ (C == 0)%Q.
Proof.
  intros Hn HC.
  assert (0 <= inject_Z (ratings_count b))%Q as Hn'
    by (change 0%Q with (inject_Z 0); by rewrite <- Zle_Qle).
  split.
  - intros Hnan.
    destruct (Qlt_le_dec 0 (inject_Z (ratings_count b) + C)) as [Hd|Hd].
    + by rewrite (bayes_finite C m b Hd) in Hnan.
    + assert (inject_Z (ratings_count b) == 0)%Q as Hn0 by lra.
      split; [by apply inject_Z_zero|lra].
  - intros [Hn0 HC0]. unfold bayes, fdiv. rewrite Hn0.
    assert (Qeq_bool (inject_Z 0 + C) 0 = true) as ->
      by (apply Qeq_bool_iff; change (inject_Z 0) with 0%Q; lra).
    assert (Qeq_bool (average_rating b * inject_Z 0 + C * m) 0 = true) as ->
      by (apply Qeq_bool_iff; change (inject_Z 0) with 0%Q; rewrite HC0; ring).
    done.
Qed.

(** Where a row of the finished table comes from in the first file. *)
Lemma pipeline_from_goodreads (gcsv : list GoodreadsCsv)
    (ccsv : list CategoriesCsv) (r : Scored) :
  r ∈ pipeline gcsv ccsv →
  ∃ x, x ∈ gcsv
       ∧ average_rating (the_book r) = g_average_rating x
       ∧ ratings_count (the_book r) = g_ratings_count x
       ∧ num_pages (the_book r) = g_num_pages x.
Proof.
  intros Hr.
  assert (the_book r ∈ normalized gcsv ccsv) as Hb.
  { by apply the_book_normalized. }
  unfold normalized, merged in Hb.
  apply list_elem_of_fmap in Hb as (b0 & -> & Hb0).
  apply elem_of_merge in Hb0 as (x & y & Hx & _ & _ & ->).
  apply list_elem_of_fmap in Hx as (x0 & -> & Hx0).
  by exists x0.
Qed.

(** When the first file has no negative number of ratings, [C] is not
    negative and the division of [bayes_average] never gives an infinity:
    it gives NaN, as 0/0, exactly on the rows without ratings when [C] is
    0, and a number on every other row. *)
Theorem bayes_average_never_infinite (gcsv : list GoodreadsCsv)
    (ccsv : list CategoriesCsv) :
  Forall (λ x, 0 ≤ g_ratings_count x) gcsv →
  (pipeline gcsv ccsv ≠ [] → (0 <= confidence (pipeline gcsv ccsv))%Q)
  ∧ Forall
      (λ r,
         (bayes_average r = NaN
          ↔ ratings_count (the_book r) = 0
            ∧ (confidence (pipeline gcsv ccsv) == 0)%Q)
         ∧ (bayes_average r ≠ NaN → ∃ q : Q, bayes_average r = Fin q))
      (pipeline gcsv ccsv).
Proof.
  intros Hfile.
  assert (∀ r', r' ∈ pipeline gcsv ccsv → 0 ≤ ratings_count (the_book r'))
    as Hrows.
  { intros r' (x & Hx & _ & -> & _)%pipeline_from_goodreads.
    exact (proj1 (Forall_forall _ _) Hfile x Hx). }
  assert (pipeline gcsv ccsv ≠ [] → (0 <= confidence (pipeline gcsv ccsv))%Q)
    as HC.
  { intros Hne. unfold confidence.
    destruct (quantile_between_cells (1 # 4)
                (ratings_count ∘ the_book <$> pipeline gcsv ccsv))
      as (a & b & gamma & Ha & Hb & Hg0 & Hg1 & ->).
    - by apply fmap_nonempty.
    - discriminate.
    - discriminate.
    - assert (∀ n, n ∈ (ratings_count ∘ the_book <$> pipeline gcsv ccsv) →
                   0 ≤ n) as Hpos.
      { intros n (r' & -> & Hr')%list_elem_of_fmap. simpl. by apply Hrows. }
      pose proof (inject_Z_nonneg a (Hpos a Ha)).
      pose proof (inject_Z_nonneg b (Hpos b Hb)). nra. }
  split; [done|]. apply Forall_forall. intros r Hr.
  assert (pipeline gcsv ccsv ≠ []) as Hne
    by (intros E; rewrite E in Hr; by apply elem_of_nil in Hr).
  pose proof (Hrows r Hr) as Hn. specialize (HC Hne).
  unfold pipeline in Hr. rewrite (score_bayes_average _ r Hr).
  fold (pipeline gcsv ccsv).
  assert (bayes (confidence (pipeline gcsv ccsv))
            (prior_mean (pipeline gcsv ccsv)) (the_book r) = NaN
          ↔ ratings_count (the_book r) = 0
            ∧ (confidence (pipeline gcsv ccsv) == 0)%Q) as Hnan
    by by apply bayes_nan.
  split; [done|]. intros Hnum.
  destruct (Qlt_le_dec 0 (inject_Z (ratings_count (the_book r))
                          + confidence (pipeline gcsv ccsv))) as [Hd|Hd].
  - rewrite (bayes_finite _ _ _ Hd). eauto.
  - exfalso. apply Hnum, Hnan.
    pose proof (inject_Z_nonneg _ Hn) as Hn'.
    assert (inject_Z (ratings_count (the_book r)) == 0)%Q as Hn0 by lra.
    split; [by apply inject_Z_zero|lra].
Qed.

(** On the sample every row gets a number; before anyone has rated a
    book, [C] is 0 and every row gets NaN. *)
Lemma bayes_average_never_infinite_shelf :
  Forall (λ r, ∃ q : Q, bayes_average r = Fin q) shelf
  ∧ Forall (λ r, bayes_average r = NaN)
      (pipeline unrated_goodreads shelf_categories).
Proof.
  split.
  - eapply Forall_impl.
    + apply (bayes_average_never_infinite shelf_goodreads shelf_categories).
      repeat constructor; discriminate.
    + intros r [Hnan Hnum]. apply Hnum. intros Hr. apply Hnan in Hr as [_ HC].
      vm_compute in HC. discriminate.
  - assert (Forall (λ r, ratings_count (the_book r) = 0)
              (pipeline unrated_goodreads shelf_categories)) as Hzero
      by (vm_compute; repeat constructor).
    destruct (bayes_average_never_infinite unrated_goodreads shelf_categories)
      as [_ Hall]; [repeat constructor; discriminate|].
    apply Forall_forall. intros r Hr.
    destruct (proj1 (Forall_forall _ _) Hall r Hr) as [Hnan _].
    apply Hnan. split; [exact (proj1 (Forall_forall _ _) Hzero r Hr)|].
    vm_compute. reflexivity.
Defined.

(** ** What the ranking rewards *)

Lemma fge_Fin (x y : Q) : (y <= x)%Q → fge (Fin x) (Fin y).
Proof. intros Hxy. simpl. by apply Is_true_true, Qle_bool_iff. Qed.

(** Of two books of the table with the same number of ratings, the one
    with the better average rating has the better [bayes_average]
    (for [C > 0]). *)
Theorem better_rating_ranks_higher (gcsv : list GoodreadsCsv)
    (ccsv : list CategoriesCsv) (r1 r2 : Scored) :
  r1 ∈ pipeline gcsv ccsv → r2 ∈ pipeline gcsv ccsv →
  (0 < confidence (pipeline gcsv ccsv))%Q →
  0 ≤ ratings_count (the_book r1) →
  ratings_count (the_book r1) = ratings_count (the_book r2) →
  (average_rating (the_book r1) <= average_rating (the_book r2))%Q →
  fge (bayes_average r2) (bayes_average r1).
Proof.
  intros Hr1 Hr2 HC Hn Hsame Ha. unfold pipeline in Hr1, Hr2.
  rewrite (score_bayes_average _ r1 Hr1), (score_bayes_average _ r2 Hr2).
  fold (pipeline gcsv ccsv).
  set (C := confidence _) in *. set (m := prior_mean _).
  pose proof (inject_Z_nonneg _ Hn) as Hn'.
  rewrite !bayes_finite by (rewrite <- ?Hsame; lra).
  apply fge_Fin. rewrite <- Hsame.
  set (n := inject_Z (ratings_count (the_book r1))) in *.
  apply Qdiv_le_cross; [lra..|].
  apply Qmult_le_compat_r; [|lra].
  pose proof (Qmult_le_compat_r _ _ n Ha Hn'). lra.
Qed.

(** In the sample where the third book is rated 4.5 and the second 4.0,
    both by 200 readers, the third has the better [bayes_average]. *)
Lemma better_rating_ranks_higher_shelf :
  ∃ r1 r2 : Scored,
    pipeline rated_goodreads shelf_categories !! 1%nat = Some r1
    ∧ pipeline rated_goodreads shelf_categories !! 2%nat = Some r2
    ∧ (average_rating (the_book r1) < average_rating (the_book r2))%Q
    ∧ ratings_count (the_book r1) = 200
    ∧ ratings_count (the_book r2) = 200
    ∧ fge (bayes_average r2) (bayes_average r1)
    ∧ fge (bayes_average r1) (bayes_average r2) = false.
Proof.
  eexists _, _. split; [vm_compute; reflexivity|].
  split; [vm_compute; reflexivity|].
  split; [reflexivity|]. split; [reflexivity|]. split; [reflexivity|].
  split; [|vm_compute; reflexivity].
  apply (better_rating_ranks_higher rated_goodreads shelf_categories).
  - apply list_elem_of_lookup_2 with 1%nat. vm_compute. reflexivity.
  - apply list_elem_of_lookup_2 with 2%nat. vm_compute. reflexivity.
  - vm_compute. reflexivity.
  - vm_compute. discriminate.
  - reflexivity.
  - vm_compute. discriminate.
Defined.

(** ** The rounding of the stars *)

Lemma nearest_half_even_mono (x y : Q) (zx zy : Z) :
  nearest_half_even x zx → nearest_half_even y zy → (x <= y)%Q → zx ≤ zy.
Proof.
  intros [Hx Hxe] [Hy Hye] Hxy.
  apply Qabs_Qle_condition in Hx as [Hx0 Hx1].
  apply Qabs_Qle_condition in Hy as [Hy0 Hy1].
  destruct (Z_le_gt_dec zx zy) as [|Hgt]; [done|exfalso].
  assert (inject_Z zy + 1 <= inject_Z zx)%Q as Hstep.
  { change 1%Q with (inject_Z 1). rewrite <- inject_Z_plus, <- Zle_Qle. lia. }
  assert (zx = zy + 1) as ->.
  { assert (inject_Z zx <= inject_Z zy + 1)%Q as Hle by lra.
    change 1%Q with (inject_Z 1) in Hle.
    rewrite <- inject_Z_plus, <- Zle_Qle in Hle. lia. }
  rewrite inject_Z_plus in *. change (inject_Z 1) with 1%Q in *.
  assert (Z.even (zy + 1) = true) as Hodd.
  { apply Hxe. rewrite Qabs_neg by lra. lra. }
  assert (Z.even zy = true) as Heven.
  { apply Hye. rewrite Qabs_pos by lra. lra. }
  rewrite Z.even_add, Heven in Hodd. done.
Qed.

(** Rounding never reverses two ratings, and leaves a whole number of
    stars as it is. *)
Theorem round_half_even_monotone (x y : Q) (z : Z) :
  ((x <= y)%Q → round_half_even x ≤ round_half_even y)
  ∧ round_half_even (inject_Z z) = z.
Proof.
  split.
  - apply nearest_half_even_mono; apply round_half_even_nearest.
  - unfold round_half_even. rewrite Qfloor_Z.
    assert ((inject_Z z - inject_Z z ?= 1 # 2)%Q = Lt) as ->; [|done].
    apply (proj1 (Qlt_alt _ _)). lra.
Qed.

(** * Further properties of the queries *)

(** ** The page buckets *)

Lemma in_pages_cases (r : Scored) :
  (in_pages Below300 r ∧ ¬ in_pages From300To499 r ∧ ¬ in_pages From500 r)
  ∨ (¬ in_pages Below300 r ∧ in_pages From300To499 r
     ∧ ¬ in_pages From500 r)
  ∨ (¬ in_pages Below300 r ∧ ¬ in_pages From300To499 r
     ∧ in_pages From500 r).
Proof.
  unfold in_pages. rewrite andb_True, !bool_decide_spec. lia.
Qed.

(** The three page buckets split the books: every book is in exactly one
    of them. *)
Theorem page_buckets_partition (r : Scored) :
  ∃ pages : Pages,
    in_pages pages r ∧ ∀ pages' : Pages, in_pages pages' r → pages' = pages.
Proof.
  destruct (in_pages_cases r) as [(H1 & H2 & H3)|[(H1 & H2 & H3)
                                                  |(H1 & H2 & H3)]].
  - exists Below300. split; [done|]. by intros [].
  - exists From300To499. split; [done|]. by intros [].
  - exists From500. split; [done|]. by intros [].
Qed.

(** ** What an answer holds *)

Lemma elem_of_displayed_df `{SortValues} (narrowed_set : list Scored)
    (pages : Pages) (number_rec : Z) (r : Scored) :
  r ∈ displayed_df narrowed_set pages number_rec →
  r ∈ narrowed_set ∧ in_pages pages r.
Proof.
  unfold displayed_df. intros Hr%head_subseteq.
  rewrite sort_values_perm in Hr.
  by apply list_elem_of_filter in Hr as [? ?].
Qed.

(** Every book of an answer is a row of the table, has its page count in
    the bucket asked for, and fits the request: in genre mode its category
    is the genre selected, in author mode it has authors and the pattern
    typed is found in them. *)
Theorem answer_fits_request `{SortValues} `{PyRe} (all_books : list Scored)
    (q : Query) (res : list Scored) :
  run_query all_books q = Some res →
  Forall
    (λ r,
       r ∈ all_books ∧ in_pages (page_bucket q) r
       ∧ match mode q with
         | Genre => categories (the_book r) = value q
         | Author =>
             ∃ search a,
               re_search_icase (value q) = Some search
               ∧ authors (the_book r) = Some a ∧ search a
         end)
    res.
Proof.
  rewrite run_query_narrowed. intros Hq. apply Forall_forall. intros r Hr.
  destruct (narrowed all_books q) as [narrowed_set|] eqn:Hn; [|done].
  simpl in Hq. injection Hq as <-. unfold narrowed_general in Hr.
  case_decide; [by apply elem_of_nil in Hr|].
  apply elem_of_displayed_df in Hr as [Hr Hp].
  unfold narrowed in Hn. destruct (mode q).
  - unfold narrowed_author in Hn.
    destruct (re_search_icase (value q)) as [search|] eqn:Hs; [|done].
    simpl in Hn. injection Hn as <-.
    apply list_elem_of_filter in Hr as [Hm Hr]. split_and!; [done..|].
    unfold str_contains in Hm.
    destruct (authors (the_book r)) as [a|]; [|done]. by exists search, a.
  - injection Hn as <-. unfold narrowed_genre in Hr.
    by apply list_elem_of_filter in Hr as [Hg Hr].
Qed.

Lemma answer_fits_request_shelf :
  ∃ res : list Scored,
    @run_query insertion_sort_values plain_re shelf humor_query = Some res
    ∧ Forall (λ r, categories (the_book r) = "Humor"
                   ∧ num_pages (the_book r) < 300) res
    ∧ length res = 3%nat.
Proof.
  eexists. split; [vm_compute; reflexivity|]. split; [|reflexivity].
  eapply Forall_impl.
  - apply (@answer_fits_request insertion_sort_values plain_re shelf humor_query).
    vm_compute. reflexivity.
  - simpl. intros r (_ & Hp & Hg). split; [done|].
    by apply bool_decide_unpack in Hp.
Defined.

(** * The list of genres *)

(** ** The order on strings *)

Lemma str_le_compare (s t : string) :
  str_le s t ↔ String.compare s t ≠ Gt.
Proof.
  unfold str_le, String.leb. destruct (String.compare s t); naive_solver.
Qed.

#[local] Instance str_le_total : Total str_le.
Proof. intros s t. apply String.leb_total. Qed.

#[local] Instance str_le_antisymm : AntiSymm (=) str_le.
Proof. intros s t. apply String.leb_antisym. Qed.

#[local] Instance str_le_trans : Transitive str_le.
Proof.
  intros s. induction s as [|a s IH]; intros t u; rewrite !str_le_compare.
  - by destruct u.
  - destruct t as [|b t]; [done|]. destruct u as [|c u]; [done|].
    simpl. unfold Ascii.compare.
    destruct (N.compare_spec (N_of_ascii a) (N_of_ascii b)) as [Hab|Hab|Hab];
      destruct (N.compare_spec (N_of_ascii b) (N_of_ascii c)) as [Hbc|Hbc|Hbc];
      try done.
    + rewrite Hab, Hbc, N.compare_refl. rewrite <- !str_le_compare. apply IH.
    + intros _ _. rewrite Hab. by rewrite (proj2 (N.compare_lt_iff _ _) Hbc).
    + intros _ _. rewrite <- Hbc.
      by rewrite (proj2 (N.compare_lt_iff _ _) Hab).
    + intros _ _.
      assert (N_of_ascii a < N_of_ascii c)%N as Hac by lia.
      by rewrite (proj2 (N.compare_lt_iff _ _) Hac).
Qed.

(** ** The loop that collects the genres *)

Lemma foldl_append_new (l acc : list string) :
  NoDup acc →
  NoDup (foldl append_new acc l)
  ∧ ∀ g, g ∈ foldl append_new acc l ↔ g ∈ acc ∨ g ∈ l.
Proof.
  revert acc. induction l as [|c l IH]; intros acc Hacc; simpl.
  - split; [done|]. intros g. rewrite elem_of_nil. tauto.
  - unfold append_new at 2 4. case_decide as Hc.
    + destruct (IH acc Hacc) as [Hnd Hin]. split; [done|].
      intros g. rewrite Hin, elem_of_cons. split; [tauto|].
      intros [?|[->|?]]; auto.
    + destruct (IH (acc ++ [c])) as [Hnd Hin].
      { apply NoDup_app. split_and!; [done| |apply NoDup_singleton].
        intros x Hx ->%list_elem_of_singleton. done. }
      split; [done|]. intros g.
      rewrite Hin, elem_of_app, list_elem_of_singleton, elem_of_cons. tauto.
Qed.

Lemma elem_of_genre_list (all_books : list Counted) (g : string) :
  g ∈ genre_list all_books ↔ g ∈ (categories ∘ book <$> all_books).
Proof.
  unfold genre_list, sorted. rewrite merge_sort_Permutation.
  destruct (foldl_append_new (categories ∘ book <$> all_books) [])
    as [_ Hin]; [constructor|].
  rewrite Hin, elem_of_nil. tauto.
Qed.

(** The list of genres offered in the side bar holds every category of the
    table once and nothing else, in ascending order; any other way of
    sorting the collected categories gives the same list. *)
Theorem genre_list_sorted_set (all_books : list Counted) :
  NoDup (genre_list all_books)
  ∧ StronglySorted str_le (genre_list all_books)
  ∧ (∀ g, g ∈ genre_list all_books ↔ g ∈ (categories ∘ book <$> all_books))
  ∧ (∀ l, l ≡ₚ foldl append_new [] (categories ∘ book <$> all_books) →
          Sorted str_le l → l = genre_list all_books).
Proof.
  split_and!; [..|apply elem_of_genre_list|]; unfold genre_list, sorted.
  - destruct (foldl_append_new (categories ∘ book <$> all_books) [])
      as [Hnd _]; [constructor|].
    by rewrite merge_sort_Permutation.
  - apply StronglySorted_merge_sort; apply _.
  - intros l Hl Hsorted. apply (Sorted_unique str_le); [done| |].
    + apply Sorted_merge_sort, _.
    + by rewrite merge_sort_Permutation.
Qed.

Lemma genre_list_in_table (all_books : list Counted) (g : string) :
  g ∈ genre_list all_books →
  ∃ c, c ∈ all_books ∧ categories (book c) = g.
Proof.
  intros Hg%elem_of_genre_list.
  apply list_elem_of_fmap in Hg as (c & -> & Hc). by exists c.
Qed.

Lemma length_narrowed_genre_pipeline (gcsv : list GoodreadsCsv)
    (ccsv : list CategoriesCsv) (g : string) :
  length (narrowed_genre (pipeline gcsv ccsv) g)
  = length (filter (λ c, categories (book c) = g)
              (frequency_filter (normalized gcsv ccsv))).
Proof.
  unfold narrowed_genre, the_book. symmetry.
  rewrite <- (counted_score (frequency_filter (normalized gcsv ccsv))).
  by rewrite length_filter_fmap.
Qed.

(** Every genre offered in the side bar has at least five books in the
    finished table, and is neither empty nor the text nan. *)
Theorem genre_list_frequent (gcsv : list GoodreadsCsv)
    (ccsv : list CategoriesCsv) :
  Forall
    (λ g, (5 ≤ length (narrowed_genre (pipeline gcsv ccsv) g))%nat
          ∧ g ≠ EmptyString ∧ g ≠ "nan")
    (genre_list (frequency_filter (normalized gcsv ccsv))).
Proof.
  apply Forall_forall. intros g (c & Hc & <-)%genre_list_in_table.
  rewrite length_narrowed_genre_pipeline.
  pose proof (frequency_filter_count _ _ Hc) as Hcount.
  apply elem_of_frequency_filter in Hc as (Hb & _ & Hf & Hg).
  split_and!.
  - unfold frequent in Hf. rewrite Hcount in Hf.
    by apply bool_decide_unpack in Hf.
  - by apply (normalized_categories_nonempty gcsv ccsv).
  - by apply bool_decide_unpack in Hg.
Qed.

(** * Further properties of the answers *)

Example sorted_by_character_code :
  sorted ["Humor"; "art"; "Fiction"; "Art"] = ["Art"; "Fiction"; "Humor"; "art"].
Proof. reflexivity. Qed.

(** ** An answer is the top of the candidates *)

Lemma head_take_drop {A : Type} (n : Z) (l : list A) :
  ∃ k : nat, head n l = take k l
             ∧ (0 ≤ n → Z.of_nat (length (take k l))
                        = Z.min n (Z.of_nat (length l))).
Proof.
  unfold head. case_bool_decide.
  - eexists. split; [done|]. intros _. rewrite length_take. lia.
  - eexists. split; [done|]. lia.
Qed.

Lemma narrowed_general_top `{SortValues} (narrowed_set : list Scored)
    (user_input : string) (pages : Pages) (number_rec : Z) :
  user_input ≠ EmptyString →
  ∃ rest : list Scored,
    narrowed_general narrowed_set user_input pages number_rec ++ rest
    ≡ₚ filter (λ r, in_pages pages r) narrowed_set
    ∧ (∀ a c,
         a ∈ narrowed_general narrowed_set user_input pages number_rec →
         c ∈ rest → key_ge (bayes_average a) (bayes_average c))
    ∧ (0 ≤ number_rec →
       Z.of_nat (length (narrowed_general narrowed_set user_input pages
                           number_rec))
       = Z.min number_rec
           (Z.of_nat (length (filter (λ r, in_pages pages r) narrowed_set)))).
Proof.
  intros Hinput. unfold narrowed_general.
  rewrite decide_False by done. unfold displayed_df.
  set (cands := filter (λ r, in_pages pages r) narrowed_set).
  pose proof (sort_values_perm _ bayes_average cands) as Hperm.
  pose proof (sort_values_sorted _ bayes_average cands) as Hsorted.
  set (ranked := sort_values_desc bayes_average cands) in *.
  destruct (head_take_drop number_rec ranked) as (k & -> & Hlen).
  exists (drop k ranked). split_and!.
  - by rewrite take_drop.
  - rewrite <- (take_drop k ranked) in Hsorted.
    apply StronglySorted_app in Hsorted as (Hcross & _ & _).
    intros a c Ha Hc. by apply Hcross.
  - intros Hn. rewrite (Hlen Hn). by rewrite Hperm.
Qed.

(** When something is typed or selected, the answer is the top of the
    candidates in the page bucket: with the books left out it makes up
    exactly those candidates, no book left out is ranked before a book
    shown, and the answer has as many books as asked for, or all the
    candidates of the bucket when there are fewer. *)
Theorem answer_is_the_top `{SortValues} `{PyRe} (all_books : list Scored)
    (q : Query) (res : list Scored) :
  value q ≠ EmptyString → 0 ≤ limit q →
  run_query all_books q = Some res →
  ∃ cands rest : list Scored,
    narrowed all_books q = Some cands
    ∧ res ++ rest ≡ₚ filter (λ r, in_pages (page_bucket q) r) cands
    ∧ (∀ a c, a ∈ res → c ∈ rest →
              key_ge (bayes_average a) (bayes_average c))
    ∧ Z.of_nat (length res)
      = Z.min (limit q)
          (Z.of_nat (length (filter (λ r, in_pages (page_bucket q) r)
                               cands))).
Proof.
  intros Hvalue Hlimit. rewrite run_query_narrowed.
  destruct (narrowed all_books q) as [cands|]; [|done]. simpl.
  intros [= <-].
  destruct (narrowed_general_top cands (value q) (page_bucket q) (limit q)
              Hvalue) as (rest & Hperm & Htop & Hlen).
  exists cands, rest. split_and!; [done..|]. by apply Hlen.
Qed.

Lemma answer_is_the_top_shelf :
  ∃ res cands rest : list Scored,
    @run_query insertion_sort_values plain_re shelf
      {| mode := Genre; value := "Humor"; page_bucket := Below300;
         limit := 2 |} = Some res
    ∧ @narrowed plain_re shelf
        {| mode := Genre; value := "Humor"; page_bucket := Below300;
           limit := 2 |} = Some cands
    ∧ res ++ rest ≡ₚ filter (λ r, in_pages Below300 r) cands
    ∧ Z.of_nat (length res) = 2.
Proof.
  eexists. 
  destruct (@answer_is_the_top insertion_sort_values plain_re shelf
              {| mode := Genre; value := "Humor"; page_bucket := Below300;
                 limit := 2 |} _ ltac:(discriminate) ltac:(discriminate)
              ltac:(vm_compute; reflexivity))
    as (cands & rest & Hc & Hperm & _ & Hlen).
  exists cands, rest. split_and!; [vm_compute; reflexivity|done..|].
  rewrite Hlen. injection Hc as <-. vm_compute. reflexivity.
Defined.

(** ** The three buckets of a genre *)

Lemma filter_pages_partition (l : list Scored) :
  filter (λ r, in_pages Below300 r) l
  ++ filter (λ r, in_pages From300To499 r) l
  ++ filter (λ r, in_pages From500 r) l ≡ₚ l.
Proof.
  induction l as [|r l IH]; [done|].
  rewrite !filter_cons.
  destruct (in_pages_cases r) as [(H1 & H2 & H3)|[(H1 & H2 & H3)
                                                  |(H1 & H2 & H3)]];
    repeat case_decide; try done; simpl.
  - by rewrite IH.
  - rewrite <- Permutation_middle. by rewrite IH.
  - rewrite app_assoc, <- Permutation_middle, <- app_assoc. by rewrite IH.
Qed.

Lemma narrowed_general_all `{SortValues} (narrowed_set : list Scored)
    (user_input : string) (pages : Pages) (number_rec : Z) :
  user_input ≠ EmptyString →
  Z.of_nat (length narrowed_set) ≤ number_rec →
  narrowed_general narrowed_set user_input pages number_rec
  ≡ₚ filter (λ r, in_pages pages r) narrowed_set.
Proof.
  intros Hinput Hn.
  destruct (narrowed_general_top narrowed_set user_input pages number_rec
              Hinput) as (rest & Hperm & _ & Hlen).
  assert (rest = []) as ->.
  { apply length_zero_iff_nil. apply Permutation_length in Hperm.
    rewrite length_app in Hperm.
    pose proof (length_filter (λ r, in_pages pages r) narrowed_set).
    lia. }
  by rewrite app_nil_r in Hperm.
Qed.

(** For a genre of the side bar and a number of books that covers the
    table, the answers for the three page buckets share out the books of
    the genre: together they hold each of them exactly once. *)
Theorem genre_answers_cover `{SortValues} (gcsv : list GoodreadsCsv)
    (ccsv : list CategoriesCsv) (genre : string) (number_rec : Z) :
  genre ∈ genre_list (frequency_filter (normalized gcsv ccsv)) →
  Z.of_nat (length (pipeline gcsv ccsv)) ≤ number_rec →
  narrowed_general (narrowed_genre (pipeline gcsv ccsv) genre) genre
    Below300 number_rec
  ++ narrowed_general (narrowed_genre (pipeline gcsv ccsv) genre) genre
       From300To499 number_rec
  ++ narrowed_general (narrowed_genre (pipeline gcsv ccsv) genre) genre
       From500 number_rec
  ≡ₚ narrowed_genre (pipeline gcsv ccsv) genre.
Proof.
  intros (c & Hc & <-)%genre_list_in_table Hn.
  apply elem_of_frequency_filter in Hc as (Hb & _).
  pose proof (normalized_categories_nonempty gcsv ccsv _ Hb) as Hne.
  assert (Z.of_nat (length (narrowed_genre (pipeline gcsv ccsv)
                              (categories (book c)))) ≤ number_rec) as Hn'.
  { pose proof (length_filter
                  (λ r, categories (the_book r) = categories (book c))
                  (pipeline gcsv ccsv)). unfold narrowed_genre. lia. }
  rewrite !narrowed_general_all by done.
  apply filter_pages_partition.
Qed.

Lemma genre_answers_cover_shelf :
  @narrowed_general insertion_sort_values (narrowed_genre shelf "Humor")
    "Humor" Below300 5
  ++ @narrowed_general insertion_sort_values (narrowed_genre shelf "Humor")
       "Humor" From300To499 5
  ++ @narrowed_general insertion_sort_values (narrowed_genre shelf "Humor")
       "Humor" From500 5
  ≡ₚ narrowed_genre shelf "Humor".
Proof.
  apply (@genre_answers_cover insertion_sort_values shelf_goodreads
           shelf_categories "Humor" 5).
  - vm_compute. left.
  - vm_compute. discriminate.
Defined.

(** * Further properties of the search by author *)

Lemma lower_str_app (s t : string) :
  lower_str (s +:+ t) = lower_str s +:+ lower_str t.
Proof.
  induction s as [|c s IH]; [done|].
  rewrite append_cons. simpl. by rewrite append_cons, IH.
Qed.

Lemma lower_str_app_inv (s u v : string) :
  lower_str s = u +:+ v →
  ∃ s1 s2, s = s1 +:+ s2 ∧ lower_str s1 = u ∧ lower_str s2 = v.
Proof.
  revert s. induction u as [|c u IH]; intros s Hs.
  - by exists EmptyString, s.
  - rewrite append_cons in Hs. destruct s as [|d s]; [done|].
    simpl in Hs. injection Hs as Hd Hs.
    destruct (IH s Hs) as (s1 & s2 & -> & H1 & H2).
    exists (String d s1), s2. rewrite append_cons. simpl.
    by rewrite Hd, H1.
Qed.

Lemma append_assoc (s t u : string) : (s +:+ t) +:+ u = s +:+ (t +:+ u).
Proof.
  induction s as [|c s IH]; [done|]. by rewrite !append_cons, IH.
Qed.

Lemma ci_substring_trans (a b s : string) :
  ci_substring a b → ci_substring b s → ci_substring a s.
Proof.
  intros (p & m & q & -> & Hm) (p' & m' & q' & -> & Hm').
  rewrite !lower_str_app in Hm'.
  apply lower_str_app_inv in Hm' as (x & yz & -> & Hx & Hyz).
  apply lower_str_app_inv in Hyz as (y & z & -> & Hy & Hz).
  exists (p' +:+ x), y, (z +:+ q'). split; [|congruence].
  by rewrite !append_assoc.
Qed.

Lemma ci_substring_lower (a b s : string) :
  lower_str a = lower_str b → ci_substring a s ↔ ci_substring b s.
Proof.
  intros Hab. unfold ci_substring. by setoid_rewrite Hab.
Qed.

Lemma filter_ext_Forall {A : Type} (P Q : A → Prop)
    `{!∀ x, Decision (P x), !∀ x, Decision (Q x)} (l : list A) :
  Forall (λ x, P x ↔ Q x) l → filter P l = filter Q l.
Proof.
  induction 1 as [|x l Hx _ IH]; [done|].
  rewrite !filter_cons, IH. destruct (decide (P x)), (decide (Q x)); tauto.
Qed.

Lemma str_contains_ci_substring (needle : string) (cell : option string) :
  str_contains (re_search (PChar <$> chars needle)) cell
  ↔ ∃ a, cell = Some a ∧ ci_substring needle a.
Proof.
  unfold str_contains. destruct cell as [a|].
  - rewrite re_search_ci_substring. split; [by exists a|].
    by intros (a' & [= <-] & Hm).
  - split; [done|]. by intros (a' & ? & _).
Qed.

(** The candidates of an ASCII input without special characters, as far
    as the rows with ASCII authors go. *)
Lemma narrowed_author_literal `{PyRe} (all_books : list Scored)
    (author : string) :
  literal author → is_ascii author →
  ∃ search : string → bool,
    narrowed_author all_books author
    = Some (filter (λ r, str_contains search (authors (the_book r)))
              all_books)
    ∧ ∀ r, ascii_authors r →
           str_contains search (authors (the_book r))
           ↔ ∃ a, authors (the_book r) = Some a ∧ ci_substring author a.
Proof.
  intros Hlit Hascii.
  destruct (narrowed_author_plain all_books author _
              (parse_plain_literal _ Hlit) Hascii) as (search & Hc & Hagree).
  exists search. split; [done|]. intros r Hr.
  by rewrite (Hagree r Hr), str_contains_ci_substring.
Qed.

(** With nothing typed, [narrowed_author] is every book that has authors:
    only the test on the empty input in [narrowed_general] keeps the whole
    table from being shown. *)
Theorem narrowed_author_empty `{PyRe} (all_books : list Scored) :
  narrowed_author all_books EmptyString
  = Some (filter (λ r, is_Some (authors (the_book r))) all_books).
Proof.
  destruct re_search_icase_empty as (search & Hs & Hfound).
  unfold narrowed_author. rewrite Hs. simpl. f_equal.
  apply list_filter_iff. intros r. unfold str_contains.
  destruct (authors (the_book r)) as [a|].
  - rewrite Hfound. split; [by eauto|done].
  - split; [done|]. by intros [? ?].
Qed.

(** The search ignores letter case on the side of what is typed too: two
    ASCII inputs without special characters that differ only in the case
    of their letters select the same books among those with ASCII authors,
    and the same candidates altogether from a table with ASCII authors
    only. *)
Theorem narrowed_author_any_case `{PyRe} (all_books : list Scored)
    (author1 author2 : string) :
  literal author1 → literal author2 →
  is_ascii author1 → is_ascii author2 →
  lower_str author1 = lower_str author2 →
  ∃ cands1 cands2 : list Scored,
    narrowed_author all_books author1 = Some cands1
    ∧ narrowed_author all_books author2 = Some cands2
    ∧ (∀ r, ascii_authors r → r ∈ cands1 ↔ r ∈ cands2)
    ∧ (Forall ascii_authors all_books → cands1 = cands2).
Proof.
  intros Hlit1 Hlit2 Hascii1 Hascii2 Hcase.
  destruct (narrowed_author_literal all_books author1 Hlit1 Hascii1)
    as (search1 & -> & Hin1).
  destruct (narrowed_author_literal all_books author2 Hlit2 Hascii2)
    as (search2 & -> & Hin2).
  assert (∀ r, ascii_authors r →
               str_contains search1 (authors (the_book r))
               ↔ str_contains search2 (authors (the_book r))) as Hsame.
  { intros r Hr. rewrite (Hin1 r Hr), (Hin2 r Hr).
    by setoid_rewrite (ci_substring_lower author1 author2 _ Hcase). }
  eexists _, _. split_and!; [done..| |].
  - intros r Hr. rewrite !list_elem_of_filter. by rewrite (Hsame r Hr).
  - intros Htable. apply filter_ext_Forall.
    eapply Forall_impl; [exact Htable|]. intros r Hr. by apply Hsame.
Qed.

Lemma narrowed_author_any_case_shelf :
  ∃ cands : list Scored,
    @narrowed_author plain_re shelf "bob hope" = Some cands
    ∧ @narrowed_author plain_re shelf "BOB Hope" = Some cands
    ∧ title ∘ the_book <$> cands = [Some "Airy"].
Proof.
  destruct (@narrowed_author_any_case plain_re shelf "bob hope" "BOB Hope")
    as (cands1 & cands2 & H1 & H2 & _ & Heq).
  - apply (bool_decide_unpack (literal _)). vm_compute. exact I.
  - apply (bool_decide_unpack (literal _)). vm_compute. exact I.
  - apply (bool_decide_unpack (is_ascii _)). vm_compute. exact I.
  - apply (bool_decide_unpack (is_ascii _)). vm_compute. exact I.
  - reflexivity.
  - exists cands1. split; [exact H1|]. split.
    + rewrite H2. f_equal. symmetry. apply Heq.
      apply (bool_decide_unpack (Forall ascii_authors shelf)).
      vm_compute. exact I.
    + vm_compute in H1. injection H1 as <-. reflexivity.
Defined.

(** Typing more narrows the search: when an ASCII input without special
    characters contains another one, ignoring case, the books with ASCII
    authors that it selects are among the books the other selects; from a
    table with ASCII authors only, its candidates are candidates of the
    other, in the same order. *)
Theorem narrowed_author_refines `{PyRe} (all_books : list Scored)
    (author1 author2 : string) :
  literal author1 → literal author2 →
  is_ascii author1 → is_ascii author2 →
  ci_substring author1 author2 →
  ∃ cands1 cands2 : list Scored,
    narrowed_author all_books author1 = Some cands1
    ∧ narrowed_author all_books author2 = Some cands2
    ∧ (∀ r, ascii_authors r → r ∈ cands2 → r ∈ cands1)
    ∧ (Forall ascii_authors all_books → cands2 `sublist_of` cands1).
Proof.
  intros Hlit1 Hlit2 Hascii1 Hascii2 Hsub.
  destruct (narrowed_author_literal all_books author1 Hlit1 Hascii1)
    as (search1 & -> & Hin1).
  destruct (narrowed_author_literal all_books author2 Hlit2 Hascii2)
    as (search2 & -> & Hin2).
  assert (∀ r, ascii_authors r →
               str_contains search2 (authors (the_book r)) →
               str_contains search1 (authors (the_book r))) as Hless.
  { intros r Hr. rewrite (Hin1 r Hr), (Hin2 r Hr).
    intros (a & Ha & Hm). exists a. split; [done|].
    by apply ci_substring_trans with author2. }
  eexists _, _. split_and!; [done..| |].
  - intros r Hr. rewrite !list_elem_of_filter. intros [Hm Hin].
    split; [by apply Hless|done].
  - intros Htable.
    assert (filter (λ r, str_contains search2 (authors (the_book r)))
              all_books
            = filter (λ r, str_contains search2 (authors (the_book r)))
                (filter (λ r, str_contains search1 (authors (the_book r)))
                   all_books)) as ->.
    { symmetry. apply filter_filter_absorb. intros r Hr.
      apply Hless. exact (proj1 (Forall_forall _ _) Htable r Hr). }
    apply sublist_filter.
Qed.

Lemma narrowed_author_refines_shelf :
  ∃ cands1 cands2 : list Scored,
    @narrowed_author plain_re shelf "o" = Some cands1
    ∧ @narrowed_author plain_re shelf "bob" = Some cands2
    ∧ cands2 `sublist_of` cands1
    ∧ length cands1 = 2%nat ∧ length cands2 = 1%nat.
Proof.
  destruct (@narrowed_author_refines plain_re shelf "o" "bob")
    as (cands1 & cands2 & H1 & H2 & _ & Hsub).
  - apply (bool_decide_unpack (literal _)). vm_compute. exact I.
  - apply (bool_decide_unpack (literal _)). vm_compute. exact I.
  - apply (bool_decide_unpack (is_ascii _)). vm_compute. exact I.
  - apply (bool_decide_unpack (is_ascii _)). vm_compute. exact I.
  - by exists "b", "o", "b".
  - exists cands1, cands2. split; [exact H1|]. split; [exact H2|]. split.
    + apply Hsub. apply (bool_decide_unpack (Forall ascii_authors shelf)).
      vm_compute. exact I.
    + vm_compute in H1, H2. injection H1 as <-. injection H2 as <-.
      split; reflexivity.
Defined.

(** * The page *)

(** ** Numbers are never the text nan *)

Lemma pretty_N_go_not_nan (x : N) (s : string) :
  s ≠ "nan" → pretty_N_go x s ≠ "nan".
Proof.
  revert s. induction (N.lt_wf_0 x) as [x _ IH]; intros s Hs.
  assert (x = 0 ∨ 0 < x)%N as [->|Hx] by lia.
  - by rewrite pretty_N_go_0.
  - rewrite pretty_N_go_step by done. apply IH.
    + by apply N.div_lt.
    + unfold pretty_N_char. by repeat case_match.
Qed.

Lemma pretty_Z_not_nan (z : Z) : pretty z ≠ "nan".
Proof.
  destruct z as [|p|p]; [done| |done].
  unfold pretty, pretty_Z, pretty, pretty_positive, pretty, pretty_N.
  case_decide; [done|]. by apply pretty_N_go_not_nan.
Qed.

(** ** One block per book *)

Lemma subheaders_app (out1 out2 : list Output) :
  subheaders (out1 ++ out2) = subheaders out1 ++ subheaders out2.
Proof. apply omap_app. Qed.

Lemma images_app (out1 out2 : list Output) :
  images (out1 ++ out2) = images out1 ++ images out2.
Proof. apply omap_app. Qed.

Lemma written_under_app (label : string) (out1 out2 : list Output) :
  written_under label (out1 ++ out2)
  = written_under label out1 ++ written_under label out2.
Proof. apply omap_app. Qed.

Lemma subheaders_display_book (count : nat) (r : Scored) :
  subheaders (display_book count r) = ["Book #" +:+ pretty count].
Proof.
  unfold display_book, display_image_to_user, display_text_to_user.
  rewrite !subheaders_app.
  repeat case_decide; repeat case_match; reflexivity.
Qed.

Lemma subheaders_display_books (count : nat) (rows : list Scored) :
  subheaders (display_books count rows)
  = (λ k, "Book #" +:+ pretty k) <$> seq (S count) (length rows).
Proof.
  revert count. induction rows as [|r rows IH]; intros count; [done|].
  change (display_books count (r :: rows))
    with (display_book (S count) r ++ display_books (S count) rows).
  by rewrite subheaders_app, subheaders_display_book, IH.
Qed.

Lemma narrowed_general_page_books `{SortValues} (narrowed_set : list Scored)
    (user_input : string) (pages : Pages) (number_rec : Z) :
  narrowed_general_page narrowed_set user_input pages number_rec
  = display_books 0
      (narrowed_general narrowed_set user_input pages number_rec).
Proof.
  unfold narrowed_general_page, narrowed_general. by case_decide.
Qed.

(** The blocks of the page are numbered Book #1, Book #2, ... in the
    order of the answer, one heading per book of the answer and so, when
    the number asked for is not negative, at most that many. *)
Theorem page_headings `{SortValues} (narrowed_set : list Scored)
    (user_input : string) (pages : Pages) (number_rec : Z) :
  subheaders (narrowed_general_page narrowed_set user_input pages number_rec)
  = (λ k, "Book #" +:+ pretty k)
    <$> seq 1 (length (narrowed_general narrowed_set user_input pages
                         number_rec))
  ∧ NoDup (subheaders (narrowed_general_page narrowed_set user_input pages
                         number_rec))
  ∧ (0 ≤ number_rec →
     Z.of_nat (length (subheaders (narrowed_general_page narrowed_set
                                     user_input pages number_rec)))
     ≤ number_rec).
Proof.
  rewrite narrowed_general_page_books, subheaders_display_books.
  split_and!.
  - done.
  - apply NoDup_fmap_2; [|apply NoDup_seq].
    intros j k Hjk. apply (inj (String.append "Book #")) in Hjk.
    by apply (inj pretty) in Hjk.
  - intros Hn. rewrite length_fmap, length_seq.
    by apply length_narrowed_general.
Qed.

(** ** What is shown of a book *)

Lemma read_cell_not_nan (s : string) : read_cell s ≠ Some "nan".
Proof.
  intros [Heq Hs]%read_cell_Some. subst s. apply Hs.
  apply (bool_decide_unpack _). by vm_compute.
Qed.

Lemma pipeline_read_from_csv (gcsv : list GoodreadsCsv)
    (ccsv : list CategoriesCsv) (r : Scored) :
  r ∈ pipeline gcsv ccsv → read_from_csv r.
Proof.
  intros Hr. pose proof (pipeline_kept _ _ _ Hr) as [_ [_ Hnan]].
  assert (the_book r ∈ normalized gcsv ccsv) as Hb.
  { by apply the_book_normalized. }
  unfold normalized, merged in Hb.
  apply list_elem_of_fmap in Hb as (b0 & Hb & Hb0).
  apply elem_of_merge in Hb0 as (x & y & Hx & Hy & _ & ->).
  apply list_elem_of_fmap in Hx as (x0 & -> & _).
  apply list_elem_of_fmap in Hy as (y0 & -> & _).
  unfold read_from_csv. rewrite Hb in *. simpl.
  split_and!; [apply read_cell_not_nan..|done].
Qed.

Lemma str_Some_nan (cell : option string) :
  cell ≠ Some "nan" → str cell = "nan" ↔ cell = None.
Proof. destruct cell as [s|]; simpl; [|done]. split; congruence. Qed.

Lemma display_image_read (cell : option string) :
  cell ≠ Some "nan" →
  display_image_to_user cell
  = match cell with Some url => [st_image url] | None => [] end.
Proof.
  intros Hc. unfold display_image_to_user. destruct cell as [url|].
  - rewrite decide_False; [done|]. simpl. congruence.
  - by rewrite decide_True.
Qed.

Lemma display_text_read (bolded text : string) :
  text ≠ "nan" →
  display_text_to_user bolded text
  = [st_write [Some ("**" +:+ bolded +:+ ":**"); Some text]].
Proof. intros Ht. unfold display_text_to_user. by rewrite decide_False. Qed.

Lemma display_text_str_read (bolded : string) (cell : option string) :
  cell ≠ Some "nan" →
  display_text_to_user bolded (str cell)
  = match cell with
    | Some text => [st_write [Some ("**" +:+ bolded +:+ ":**"); Some text]]
    | None => []
    end.
Proof.
  intros Hc. unfold display_text_to_user. destruct cell as [text|].
  - rewrite decide_False; [done|]. simpl. congruence.
  - by rewrite decide_True.
Qed.

Lemma display_book_read_outs (count : nat) (r : Scored) :
  read_from_csv r →
  images (display_book count r) = option_list (thumbnail (the_book r))
  ∧ written_under "Genre" (display_book count r) = [categories (the_book r)]
  ∧ written_under "Page count" (display_book count r)
    = [pretty (num_pages (the_book r))].
Proof.
  intros (Ht & Hi & Hc). unfold display_book.
  rewrite (display_image_read _ Ht), (display_text_read "Genre" _ Hc),
    (display_text_read "Page count" _ (pretty_Z_not_nan _)),
    (display_text_str_read "ISBN 10" _ Hi).
  rewrite !images_app, !written_under_app.
  destruct (thumbnail (the_book r)), (isbn10 (the_book r)),
    (title (the_book r)); split_and!; reflexivity.
Qed.

Lemma display_books_read_outs (count : nat) (rows : list Scored) :
  Forall read_from_csv rows →
  images (display_books count rows) = omap (thumbnail ∘ the_book) rows
  ∧ written_under "Genre" (display_books count rows)
    = categories ∘ the_book <$> rows
  ∧ written_under "Page count" (display_books count rows)
    = pretty ∘ num_pages ∘ the_book <$> rows.
Proof.
  intros Hrows. revert count.
  induction Hrows as [|r rows Hr _ IH]; intros count; [done|].
  change (display_books count (r :: rows))
    with (display_book (S count) r ++ display_books (S count) rows).
  destruct (IH (S count)) as (IH1 & IH2 & IH3).
  destruct (display_book_read_outs (S count) r Hr) as (H1 & H2 & H3).
  rewrite images_app, !written_under_app, IH1, IH2, IH3, H1, H2, H3.
  simpl. split_and!; try done.
  by destruct (thumbnail (the_book r)).
Qed.

(** On a table made by the pipeline, every book of an answer is shown
    with its genre and its page count, and with its picture when the file
    has one, all in the order of the answer. *)
Theorem page_shows_each_book `{SortValues} `{PyRe}
    (gcsv : list GoodreadsCsv) (ccsv : list CategoriesCsv) (q : Query)
    (res : list Scored) :
  run_query (pipeline gcsv ccsv) q = Some res →
  ∃ narrowed_set : list Scored,
    narrowed (pipeline gcsv ccsv) q = Some narrowed_set
    ∧ narrowed_general_page narrowed_set (value q) (page_bucket q) (limit q)
      = display_books 0 res
    ∧ images (display_books 0 res) = omap (thumbnail ∘ the_book) res
    ∧ written_under "Genre" (display_books 0 res)
      = categories ∘ the_book <$> res
    ∧ written_under "Page count" (display_books 0 res)
      = pretty ∘ num_pages ∘ the_book <$> res.
Proof.
  intros Hq. pose proof Hq as Hsub%run_query_subseteq.
  rewrite run_query_narrowed in Hq.
  destruct (narrowed (pipeline gcsv ccsv) q) as [narrowed_set|]; [|done].
  simpl in Hq. injection Hq as <-. exists narrowed_set.
  split; [done|]. split; [apply narrowed_general_page_books|].
  apply display_books_read_outs, Forall_forall.
  intros r Hr. apply (pipeline_read_from_csv gcsv ccsv). by apply Hsub.
Qed.

(** The three short books of the sample: the best one first, then the two
    with the same [bayes_average]. *)
Lemma page_shows_each_book_shelf :
  ∃ res : list Scored,
    @run_query insertion_sort_values plain_re shelf humor_query = Some res
    ∧ written_under "Page count" (display_books 0 res) = ["120"; "250"; "280"]
    ∧ written_under "Genre" (display_books 0 res)
      = ["Humor"; "Humor"; "Humor"]
    ∧ images (display_books 0 res) = [].
Proof.
  eexists. split; [vm_compute; reflexivity|].
  destruct (@page_shows_each_book insertion_sort_values plain_re
              shelf_goodreads shelf_categories humor_query _
              ltac:(vm_compute; reflexivity))
    as (_ & _ & _ & Himg & Hgenre & Hpages).
  split_and!; [|exact Hgenre|exact Himg].
  rewrite Hpages. vm_compute. reflexivity.
Defined.

(** Without a choice in the side bar, and with Author chosen but nothing
    typed, the page is the banner, the title and one line asking for the
    missing input: no book is shown, whatever the table, the page bucket
    and the number asked for. *)
Theorem page_without_input `{SortValues} `{PyRe} (all_books : list Scored)
    (value : string) (pages : Pages) (number_rec : Z) :
  (∃ hint, page all_books Blank value pages number_rec
           = Some [st_image
                     "https://www.mainejewish.org/wp-content/uploads/2017/07/Books-Banner.jpg";
                   st_title "Book Recommender"; st_subheader hint])
  ∧ (∃ hint, page all_books ByAuthor EmptyString pages number_rec
             = Some [st_image
                       "https://www.mainejewish.org/wp-content/uploads/2017/07/Books-Banner.jpg";
                     st_title "Book Recommender"; st_subheader hint]).
Proof.
  split.
  - by eexists.
  - destruct re_search_icase_empty as (search & Hs & _).
    eexists. unfold page, narrowed_author. by rewrite Hs.
Qed.

(** ** Asking for more, and showing a book once *)

Lemma head_prefix_of {A : Type} (n n' : Z) (l : list A) :
  0 ≤ n → n ≤ n' → head n l `prefix_of` head n' l.
Proof.
  intros H0 Hn. unfold head.
  rewrite !bool_decide_eq_true_2 by lia.
  assert (take (Z.to_nat n) l = take (Z.to_nat n) (take (Z.to_nat n') l))
    as ->.
  { rewrite take_take. f_equal. lia. }
  apply prefix_take.
Qed.

(** Asking for more books only adds books at the end: the answer for a
    number is the beginning of the answer for any greater number. *)
Theorem answer_grows_at_the_end `{SortValues} `{PyRe}
    (all_books : list Scored) (q q' : Query) (res res' : list Scored) :
  mode q' = mode q → value q' = value q → page_bucket q' = page_bucket q →
  0 ≤ limit q → limit q ≤ limit q' →
  run_query all_books q = Some res → run_query all_books q' = Some res' →
  res `prefix_of` res'.
Proof.
  intros Hm Hv Hp Hzero Hn. rewrite !run_query_narrowed.
  unfold narrowed. rewrite Hm, Hv, Hp.
  destruct (match mode q with
            | Author => narrowed_author all_books (value q)
            | Genre => Some (narrowed_genre all_books (value q))
            end) as [narrowed_set|]; [|done].
  simpl. intros [= <-] [= <-]. unfold narrowed_general.
  case_decide; [done|]. unfold displayed_df. by apply head_prefix_of.
Qed.

Lemma answer_grows_at_the_end_shelf :
  ∃ res res' : list Scored,
    @run_query insertion_sort_values plain_re shelf
      {| mode := Genre; value := "Humor"; page_bucket := Below300;
         limit := 1 |} = Some res
    ∧ @run_query insertion_sort_values plain_re shelf humor_query = Some res'
    ∧ res `prefix_of` res'.
Proof.
  eexists _, _. split; [vm_compute; reflexivity|].
  split; [vm_compute; reflexivity|].
  apply (@answer_grows_at_the_end insertion_sort_values plain_re shelf
           {| mode := Genre; value := "Humor"; page_bucket := Below300;
              limit := 1 |} humor_query);
    try reflexivity; try (vm_compute; discriminate).
Defined.

(** A table without a repeated row gives answers without a repeated
    book. *)
Theorem answer_without_repeats `{SortValues} `{PyRe}
    (all_books res : list Scored) (q : Query) :
  NoDup all_books → run_query all_books q = Some res → NoDup res.
Proof.
  intros Hnd. rewrite run_query_narrowed.
  destruct (narrowed all_books q) as [narrowed_set|] eqn:Hset; [|done].
  simpl. intros [= <-].
  assert (NoDup narrowed_set) as Hset'.
  { unfold narrowed in Hset. destruct (mode q).
    - unfold narrowed_author in Hset.
      destruct (re_search_icase (value q)); [|done].
      simpl in Hset. injection Hset as <-. by apply NoDup_filter.
    - injection Hset as <-. by apply NoDup_filter. }
  unfold narrowed_general. case_decide; [constructor|].
  unfold displayed_df.
  destruct (head_prefix (limit q)
              (sort_values_desc bayes_average
                 (filter (λ r, in_pages (page_bucket q) r) narrowed_set)))
    as [k ->].
  eapply sublist_NoDup; [|apply sublist_take].
  rewrite sort_values_perm. by apply NoDup_filter.
Qed.

Lemma answer_without_repeats_shelf :
  ∃ res : list Scored,
    @run_query insertion_sort_values plain_re shelf humor_query = Some res
    ∧ NoDup res.
Proof.
  eexists. split; [vm_compute; reflexivity|].
  apply (@answer_without_repeats insertion_sort_values plain_re shelf _
           humor_query).
  - apply (NoDup_fmap_1 (isbn10 ∘ the_book)).
    apply (bool_decide_unpack (NoDup _)). vm_compute. exact I.
  - vm_compute. reflexivity.
Defined.
